(** * Micro-Pickup: a shallow embedding of [MicroPickup.py]

    The program drives a micro:bit: a 5x5 LED grid, a compass, an
    accelerometer, two buttons and a millisecond clock.  The embedding keeps
    the class structure of the source ([Player], [Pickup], [Game]) as
    modules, threads the hardware through a small state monad [IO] over a
    [Device], and runs the two nested [while] loops of [playGame] as a
    step function on the loop's control state. *)

From Stdlib Require Import ZArith List String Ascii Bool Lia.
From Stdlib Require Import Reals Lra DecimalString.
From Stdlib Require Import Floats.SpecFloat.
Import ListNotations.
Open Scope Z_scope.

(** * Module-level constants *)

Definition MAX_POSITION : Z := 4.
Definition MIN_POSITION : Z := 0.
Definition SCREEN_CENTER : Z := 2.

(** * The device

    Every sensor is an endless feed of successive readings: a read returns
    the head of the feed and leaves the tail.  What the program sends to the
    display, the compass and the timer is logged, newest event first. *)

Definition Feed (A : Type) : Type := nat -> A.

Definition feed_head {A} (f : Feed A) : A := f 0%nat.
Definition feed_tail {A} (f : Feed A) : Feed A := fun n => f (S n).

Inductive Event : Type :=
| EvClear
| EvSetPixel (px py b : Z)
| EvScroll (text : string) (delay : Z)
| EvCalibrate
| EvSleep (ms : Z).

Record Device : Type := mkDevice {
  heading_feed : Feed Z;
  accel_x_feed : Feed Z;
  accel_y_feed : Feed Z;
  accel_z_feed : Feed Z;
  button_a_feed : Feed bool;
  button_b_feed : Feed bool;
  clock_feed : Feed Z;
  entropy_feed : Feed Z;
  calibrated : bool;
  emitted : list Event
}.

Definition IO (A : Type) : Type := Device -> A * Device.

Definition ret {A} (a : A) : IO A := fun d => (a, d).

Definition bind {A B} (m : IO A) (k : A -> IO B) : IO B :=
  fun d => let (a, d') := m d in k a d'.

Declare Scope io_scope.
Delimit Scope io_scope with io.
Notation "x <- m ;; k" := (bind m (fun x => k))
  (at level 61, m at next level, right associativity) : io_scope.
Notation "m ;;; k" := (bind m (fun _ => k))
  (at level 61, right associativity) : io_scope.
Open Scope io_scope.

Definition emit (e : Event) : IO unit :=
  fun d => (tt, mkDevice (heading_feed d) (accel_x_feed d) (accel_y_feed d)
                         (accel_z_feed d) (button_a_feed d) (button_b_feed d)
                         (clock_feed d) (entropy_feed d) (calibrated d)
                         (e :: emitted d)).

(** [compass.heading()]: an integer number of degrees. *)
Definition compass_heading : IO Z :=
  fun d => (feed_head (heading_feed d),
            mkDevice (feed_tail (heading_feed d)) (accel_x_feed d)
                     (accel_y_feed d) (accel_z_feed d) (button_a_feed d)
                     (button_b_feed d) (clock_feed d) (entropy_feed d)
                     (calibrated d) (emitted d)).

Definition compass_is_calibrated : IO bool := fun d => (calibrated d, d).

Definition compass_calibrate : IO unit :=
  fun d => (tt, mkDevice (heading_feed d) (accel_x_feed d) (accel_y_feed d)
                         (accel_z_feed d) (button_a_feed d) (button_b_feed d)
                         (clock_feed d) (entropy_feed d) true
                         (EvCalibrate :: emitted d)).

Definition accelerometer_get_x : IO Z :=
  fun d => (feed_head (accel_x_feed d),
            mkDevice (heading_feed d) (feed_tail (accel_x_feed d))
                     (accel_y_feed d) (accel_z_feed d) (button_a_feed d)
                     (button_b_feed d) (clock_feed d) (entropy_feed d)
                     (calibrated d) (emitted d)).

Definition accelerometer_get_y : IO Z :=
  fun d => (feed_head (accel_y_feed d),
            mkDevice (heading_feed d) (accel_x_feed d)
                     (feed_tail (accel_y_feed d)) (accel_z_feed d)
                     (button_a_feed d) (button_b_feed d) (clock_feed d)
                     (entropy_feed d) (calibrated d) (emitted d)).

Definition accelerometer_get_z : IO Z :=
  fun d => (feed_head (accel_z_feed d),
            mkDevice (heading_feed d) (accel_x_feed d) (accel_y_feed d)
                     (feed_tail (accel_z_feed d)) (button_a_feed d)
                     (button_b_feed d) (clock_feed d) (entropy_feed d)
                     (calibrated d) (emitted d)).

Definition button_a_was_pressed : IO bool :=
  fun d => (feed_head (button_a_feed d),
            mkDevice (heading_feed d) (accel_x_feed d) (accel_y_feed d)
                     (accel_z_feed d) (feed_tail (button_a_feed d))
                     (button_b_feed d) (clock_feed d) (entropy_feed d)
                     (calibrated d) (emitted d)).

Definition button_b_was_pressed : IO bool :=
  fun d => (feed_head (button_b_feed d),
            mkDevice (heading_feed d) (accel_x_feed d) (accel_y_feed d)
                     (accel_z_feed d) (button_a_feed d)
                     (feed_tail (button_b_feed d)) (clock_feed d)
                     (entropy_feed d) (calibrated d) (emitted d)).

(** [microbit.running_time()]: milliseconds since the board started. *)
Definition running_time : IO Z :=
  fun d => (feed_head (clock_feed d),
            mkDevice (heading_feed d) (accel_x_feed d) (accel_y_feed d)
                     (accel_z_feed d) (button_a_feed d) (button_b_feed d)
                     (feed_tail (clock_feed d)) (entropy_feed d)
                     (calibrated d) (emitted d)).

(** [random.randrange(stop)]: the library returns an integer [r] with
    [0 <= r < stop]; the next word of entropy is reduced into that range. *)
Definition randrange (stop : Z) : IO Z :=
  fun d => (feed_head (entropy_feed d) mod stop,
            mkDevice (heading_feed d) (accel_x_feed d) (accel_y_feed d)
                     (accel_z_feed d) (button_a_feed d) (button_b_feed d)
                     (clock_feed d) (feed_tail (entropy_feed d))
                     (calibrated d) (emitted d)).

Definition display_clear : IO unit := emit EvClear.
Definition draw_pixel (px py b : Z) : IO unit := emit (EvSetPixel px py b).
Definition display_scroll (text : string) (delay : Z) : IO unit :=
  emit (EvScroll text delay).
Definition sleep (ms : Z) : IO unit := emit (EvSleep ms).

(** The delay [display.scroll] uses when the caller gives none. *)
Definition DEFAULT_SCROLL_DELAY : Z := 150.

(** Python's short-circuit [or] and [and] over tests that read a sensor. *)
Definition orM (a b : IO bool) : IO bool :=
  t <- a ;; if t then ret true else b.

Definition andM (a b : IO bool) : IO bool :=
  t <- a ;; if t then b else ret false.

(** * Numbers that Python computes in floating point

    [math.sqrt] of an integer is kept exactly, as the square root of its
    radicand; comparing it with an integer is then decided on integers.
    [surd_value] gives the real number it stands for. *)

Record Surd : Type := mkSurd { radicand : Z }.

Definition math_sqrt (n : Z) : Surd := mkSurd n.

Definition surd_value (s : Surd) : R := sqrt (IZR (radicand s)).

(** [s > k] *)
Definition surd_gtb (s : Surd) (k : Z) : bool :=
  if k <? 0 then true else k * k <? radicand s.

(** MicroPython on the micro:bit has single-precision floats: IEEE 754
    binary32, 24 bits of mantissa, rounding to nearest with ties to even.
    They are the [spec_float] of the Standard Library at this format. *)
Definition float_prec : Z := 24.
Definition float_emax : Z := 128.

(** The conversion of an integer to a float, rounded when the integer has
    more than 24 significant bits. *)
Definition float_of_int (z : Z) : spec_float :=
  binary_normalize float_prec float_emax z 0 false.

(** True division [a / b] of two integers: both are converted to floats
    and the floats are divided. *)
Definition true_div (a b : Z) : spec_float :=
  SFdiv float_prec float_emax (float_of_int a) (float_of_int b).

(** [int(f)]: the fractional part is dropped, towards zero.  (For an
    infinity or a NaN [int] raises an error; a clock difference, which is
    far below 2^128, divided by 1000 is neither.) *)
Definition int_of (f : spec_float) : Z :=
  match f with
  | S754_finite s m e => cond_Zopp s (Z.shiftl (Zpos m) e)
  | _ => 0
  end.

(** [str(n)] for an integer. *)
Definition str (n : Z) : string := NilZero.string_of_int (Z.to_int n).

(** * Entities *)

Record Position : Type := mkPosition { x : Z; y : Z }.

(** [GameObject]: the class-level defaults are a position at the origin and
    brightness 0. *)
Record GameObject : Type := mkGameObject {
  position : Position;
  brightness : Z
}.

Definition GameObject_default : GameObject :=
  mkGameObject (mkPosition 0 0) 0.

Module Player.

Definition init : GameObject :=
  mkGameObject (mkPosition SCREEN_CENTER SCREEN_CENTER) 9.

Definition reset (self : GameObject) : GameObject :=
  mkGameObject (mkPosition SCREEN_CENTER SCREEN_CENTER) (brightness self).

Definition constrainToBoundaries (value : Z) : Z :=
  if value <? MIN_POSITION then MIN_POSITION
  else if value >? MAX_POSITION then MAX_POSITION
  else value.

Definition move (self : GameObject) (direction : string) : GameObject :=
  let p := position self in
  if String.eqb direction "N" then
    mkGameObject (mkPosition (x p) (constrainToBoundaries (y p - 1)))
                 (brightness self)
  else if String.eqb direction "S" then
    mkGameObject (mkPosition (x p) (constrainToBoundaries (y p + 1)))
                 (brightness self)
  else if String.eqb direction "W" then
    mkGameObject (mkPosition (constrainToBoundaries (x p - 1)) (y p))
                 (brightness self)
  else if String.eqb direction "E" then
    mkGameObject (mkPosition (constrainToBoundaries (x p + 1)) (y p))
                 (brightness self)
  else self.

Definition draw (self : GameObject) : IO unit :=
  draw_pixel (x (position self)) (y (position self)) (brightness self).

End Player.

Module Pickup.

(** A new pickup gets a position object of its own, so writing its
    coordinates touches no other object. *)
Definition init : IO GameObject :=
  px <- randrange (MAX_POSITION + 1) ;;
  py <- randrange (MAX_POSITION + 1) ;;
  ret (mkGameObject (mkPosition px py) 3).

End Pickup.

(** * The game *)

(** Python's [list.remove(v)]: the first item equal to [v] is dropped.  The
    items are object references and the classes define no [__eq__], so
    equality is identity. *)
Fixpoint list_remove (r : nat) (l : list nat) : list nat :=
  match l with
  | [] => []
  | a :: t => if Nat.eqb a r then t else a :: list_remove r t
  end.

Module Game.

(** [pickups] lists references into [objects], the store of the [Pickup]
    instances made so far; [next_ref] is the first unused reference. *)
Record t : Type := mk {
  player : GameObject;
  pickups : list nat;
  objects : nat -> GameObject;
  next_ref : nat;
  game_running : bool
}.

Definition acceleration_needed_to_move : Z := 1200.

(** The class body: [player = Player()], [pickups = []],
    [game_running = True]. *)
Definition class_state : t :=
  mk Player.init [] (fun _ => GameObject_default) 0%nat true.

Definition set_player (self : t) (p : GameObject) : t :=
  mk p (pickups self) (objects self) (next_ref self) (game_running self).

Definition set_pickups (self : t) (l : list nat) : t :=
  mk (player self) l (objects self) (next_ref self) (game_running self).

(** [self.pickups.append(new_pickup)] for a freshly built object. *)
Definition append_new (self : t) (o : GameObject) : t :=
  mk (player self)
     (pickups self ++ [next_ref self])
     (fun r => if Nat.eqb r (next_ref self) then o else objects self r)
     (S (next_ref self))
     (game_running self).

Definition setup : IO unit :=
  c <- compass_is_calibrated ;;
  if negb c then compass_calibrate else ret tt.

(** [Game()] *)
Definition init : IO t := setup ;;; ret class_state.

(** [for x in range(amount)] *)
Fixpoint spawn_loop (count : nat) (self : t) : IO t :=
  match count with
  | O => ret self
  | S k =>
      new_pickup <- Pickup.init ;;
      spawn_loop k (append_new self new_pickup)
  end.

Definition spawnPickups (self : t) (amount : Z) : IO t :=
  spawn_loop (Z.to_nat amount) (set_pickups self []).

Fixpoint drawPickups_loop (objs : nat -> GameObject) (l : list nat)
  : IO unit :=
  match l with
  | [] => ret tt
  | r :: rest =>
      draw_pixel (x (position (objs r))) (y (position (objs r)))
                 (brightness (objs r)) ;;;
      drawPickups_loop objs rest
  end.

Definition drawPickups (self : t) : IO unit :=
  drawPickups_loop (objects self) (pickups self).

Definition findApproxFacingDirection : IO string :=
  c1 <- orM (h <- compass_heading ;; ret (h >? 315))
            (h <- compass_heading ;; ret (h <? 45)) ;;
  if c1 then ret "N"%string else
  c2 <- andM (h <- compass_heading ;; ret (h >? 225))
             (h <- compass_heading ;; ret (h <? 315)) ;;
  if c2 then ret "W"%string else
  c3 <- andM (h <- compass_heading ;; ret (h >? 135))
             (h <- compass_heading ;; ret (h <? 225)) ;;
  if c3 then ret "S"%string else
  c4 <- andM (h <- compass_heading ;; ret (h >? 45))
             (h <- compass_heading ;; ret (h <? 135)) ;;
  if c4 then ret "E"%string else
  ret ""%string.

Definition getAcceleration : IO Surd :=
  ax <- accelerometer_get_x ;;
  ay <- accelerometer_get_y ;;
  az <- accelerometer_get_z ;;
  ret (math_sqrt (ax ^ 2 + ay ^ 2 + az ^ 2)).

(** The test of [update]'s body: the pickup is on the player's cell. *)
Definition collides (self : t) (r : nat) : bool :=
  if x (position (objects self r)) =? x (position (player self)) then
    if y (position (objects self r)) =? y (position (player self)) then true
    else false
  else false.

(** [for pickup in self.pickups] over a list the body shrinks: the
    iterator holds an index, yields the item at it while the index is
    inside the current list, and moves on by one.  [fuel] bounds the number
    of rounds. *)
Fixpoint update_loop (self : t) (fuel i : nat) (l : list nat) : list nat :=
  match fuel with
  | O => l
  | S f =>
      match nth_error l i with
      | None => l
      | Some pickup =>
          if collides self pickup
          then update_loop self f (S i) (list_remove pickup l)
          else update_loop self f (S i) l
      end
  end.

Definition update (self : t) : t :=
  set_pickups self
    (update_loop self (List.length (pickups self)) 0%nat (pickups self)).

Definition startLevel (self : t) (pickup_amount : Z) : IO t :=
  g <- spawnPickups self pickup_amount ;;
  let g' := set_player g (Player.reset (player g)) in
  display_clear ;;;
  ret g'.

Definition getInput (self : t) : IO t :=
  direction <- findApproxFacingDirection ;;
  acc <- getAcceleration ;;
  let g := if surd_gtb acc acceleration_needed_to_move
           then set_player self (Player.move (player self) direction)
           else self in
  b <- button_b_was_pressed ;;
  (if b then
     let scroll_delay := 100 in
     d <- findApproxFacingDirection ;;
     display_scroll d scroll_delay
   else
     a <- button_a_was_pressed ;;
     if a then compass_calibrate else ret tt) ;;;
  ret g.

Definition draw (self : t) : IO unit :=
  display_clear ;;;
  drawPickups self ;;;
  Player.draw (player self).

Definition isGameOver (self : t) : bool :=
  let is_pickups_empty := (Z.of_nat (List.length (pickups self)) <? 1) in
  if is_pickups_empty then true else false.

End Game.

(** * [playGame]

    The two nested loops never end, so they run as a machine: one step is
    one pass through the head of a loop.  At the head of the outer loop a
    level is started and its start time read; at the head of the inner loop
    either the body runs once or, with no pickup left, control goes back to
    the outer loop. *)

Inductive Phase : Type := OuterLoop | InnerLoop | Returned.

Record Loop : Type := mkLoop {
  game : Game.t;
  pickup_amount : Z;
  level_start_time : Z;
  phase : Phase
}.

(** The text scrolled when a level is cleared. *)
Definition time_message (level_start_time current_time : Z) : string :=
  let seconds_elapsed := true_div (current_time - level_start_time) 1000 in
  ("TIME:" ++ str (int_of seconds_elapsed) ++ " SECONDS.")%string.

(** Up to the first [while]. *)
Definition playGame_enter (self : Game.t) : IO Loop :=
  display_scroll "WALK TO PICK UP ITEMS." DEFAULT_SCROLL_DELAY ;;;
  ret (mkLoop self 4 0 OuterLoop).

(** The body of the inner loop. *)
Definition tick (s : Loop) : IO Loop :=
  g1 <- Game.getInput (game s) ;;
  let g2 := Game.update g1 in
  Game.draw g2 ;;;
  amount <- (if Game.isGameOver g2 then
               current_time <- running_time ;;
               display_scroll (time_message (level_start_time s) current_time)
                              DEFAULT_SCROLL_DELAY ;;;
               ret (pickup_amount s + 1)
             else ret (pickup_amount s)) ;;
  sleep 100 ;;;
  ret (mkLoop g2 amount (level_start_time s) InnerLoop).

Definition step (s : Loop) : IO Loop :=
  match phase s with
  | OuterLoop =>
      if Game.game_running (game s) then
        g <- Game.startLevel (game s) (pickup_amount s) ;;
        t0 <- running_time ;;
        ret (mkLoop g (pickup_amount s) t0 InnerLoop)
      else ret (mkLoop (game s) (pickup_amount s) (level_start_time s)
                       Returned)
  | InnerLoop =>
      if negb (Game.isGameOver (game s)) then tick s
      else ret (mkLoop (game s) (pickup_amount s) (level_start_time s)
                       OuterLoop)
  | Returned => ret s
  end.

Fixpoint run (n : nat) (s : Loop) : IO Loop :=
  match n with
  | O => ret s
  | S k => s' <- step s ;; run k s'
  end.

(** [main()] cut off after [n] steps of the loops. *)
Definition main (n : nat) : IO Loop :=
  g <- Game.init ;;
  s <- playGame_enter g ;;
  run n s.

(** The number of pickups on the grid right after each level start, in
    order, over [n] steps. *)
Fixpoint spawned (n : nat) (s : Loop) : IO (list Z) :=
  match n with
  | O => ret []
  | S k =>
      s' <- step s ;;
      rest <- spawned k s' ;;
      ret (match phase s, phase s' with
           | OuterLoop, InnerLoop =>
               Z.of_nat (List.length (Game.pickups (game s'))) :: rest
           | _, _ => rest
           end)
  end.

(** * Predicates used by the statements *)

Definition in_grid (p : Position) : Prop :=
  MIN_POSITION <= x p <= MAX_POSITION /\ MIN_POSITION <= y p <= MAX_POSITION.

(** A compass that keeps reporting the heading [h]. *)
Definition steady_heading (d : Device) (h : Z) : Prop :=
  forall n, heading_feed d n = h.

(** A device on the desk: every feed is constant. *)
Definition still_device (h ax ay az now rnd : Z) : Device :=
  mkDevice (fun _ => h) (fun _ => ax) (fun _ => ay) (fun _ => az)
           (fun _ => false) (fun _ => false) (fun _ => now) (fun _ => rnd)
           true [].

Definition player_at (px py : Z) : GameObject :=
  mkGameObject (mkPosition px py) 9.

(** A game whose pickups sit, in order, at the listed cells. *)
Definition game_with (p : GameObject) (cells : list (Z * Z)) : Game.t :=
  Game.mk p (seq 0 (List.length cells))
          (fun r => match nth_error cells r with
                    | Some (cx, cy) => mkGameObject (mkPosition cx cy) 3
                    | None => GameObject_default
                    end)
          (List.length cells) true.

Definition pickup_cells (g : Game.t) : list (Z * Z) :=
  map (fun r => (x (position (Game.objects g r)),
                 y (position (Game.objects g r)))) (Game.pickups g).

(** Every listed pickup was allocated and sits on the grid. *)
Definition well_placed (g : Game.t) : Prop :=
  Forall (fun r => (r < Game.next_ref g)%nat /\
                   in_grid (position (Game.objects g r)))
         (Game.pickups g).

(** The spawn counts of the levels that [main] starts within [n] steps. *)
Definition main_spawned (n : nat) : IO (list Z) :=
  g <- Game.init ;;
  s <- playGame_enter g ;;
  spawned n s.

(** Where the loops stand once [m] levels have been started: the amount
    for the next level is [4 + m], except while a level is being played,
    when it still is that level's own amount. *)
Definition level_inv (m : Z) (s : Loop) : Prop :=
  0 <= m /\
  Game.game_running (game s) = true /\
  match phase s with
  | OuterLoop => pickup_amount s = 4 + m
  | InnerLoop =>
      if Game.isGameOver (game s) then pickup_amount s = 4 + m
      else pickup_amount s = 4 + m - 1 /\ 1 <= m
  | Returned => False
  end.

(** [preserves proj m]: running [m] does not change the part [proj] of the
    device. *)
Definition preserves {X A} (proj : Device -> X) (m : IO A) : Prop :=
  forall d, proj (snd (m d)) = proj d.

(** [reads_as m h v]: with a compass that keeps reporting [h], [m] returns
    [v] and leaves the compass reporting [h]. *)
Definition reads_as {A} (m : IO A) (h : Z) (v : A) : Prop :=
  forall d, steady_heading d h ->
            fst (m d) = v /\ steady_heading (snd (m d)) h.

(** The table the four tests compute on one heading. *)
Definition quantize (h : Z) : string :=
  if (h >? 315) || (h <? 45) then "N"
  else if (h >? 225) && (h <? 315) then "W"
  else if (h >? 135) && (h <? 225) then "S"
  else if (h >? 45) && (h <? 135) then "E"
  else "".

(** * Definitions used by the further properties *)

(** One pass over a list of distinct references as [update] makes it: an
    item that is hit is dropped and the item after it is passed over
    unexamined. *)
Fixpoint sweep (hit : nat -> bool) (l : list nat) : list nat :=
  match l with
  | [] => []
  | r :: t =>
      if hit r then
        match t with
        | [] => []
        | s :: t' => s :: sweep hit t'
        end
      else r :: sweep hit t
  end.

(** No two neighbours of the list are both hit. *)
Fixpoint hits_apart (hit : nat -> bool) (l : list nat) : Prop :=
  match l with
  | [] => True
  | a :: t =>
      match t with
      | [] => True
      | b :: _ => (hit a = true -> hit b = false) /\ hits_apart hit t
      end
  end.

(** The listed pickups are distinct objects, each of brightness 3. *)
Definition tidy (g : Game.t) : Prop :=
  NoDup (Game.pickups g) /\
  Forall (fun r => brightness (Game.objects g r) = 3) (Game.pickups g).

(** The cell of the [i]-th pickup of a level: the draw number [2 i] gives
    its column and the draw after it its row. *)
Definition drawn_cell (entropy : Feed Z) (i : nat) : Z * Z :=
  (entropy (2 * i)%nat mod (MAX_POSITION + 1),
   entropy (2 * i + 1)%nat mod (MAX_POSITION + 1)).

(** The device with another log. *)
Definition set_emitted (d : Device) (log : list Event) : Device :=
  mkDevice (heading_feed d) (accel_x_feed d) (accel_y_feed d)
           (accel_z_feed d) (button_a_feed d) (button_b_feed d)
           (clock_feed d) (entropy_feed d) (calibrated d) log.

(** The device after [k] further reads of the compass. *)
Definition skip_headings (d : Device) (k : nat) : Device :=
  mkDevice (fun n => heading_feed d (k + n)%nat) (accel_x_feed d)
           (accel_y_feed d) (accel_z_feed d) (button_a_feed d)
           (button_b_feed d) (clock_feed d) (entropy_feed d) (calibrated d)
           (emitted d).

(** The event that lights an object's LED. *)
Definition pixel_of (o : GameObject) : Event :=
  EvSetPixel (x (position o)) (y (position o)) (brightness o).

(** What [display.set_pixel] accepts: a cell of the 5x5 grid and a
    brightness from 0 to 9. *)
Definition pixel_ok (e : Event) : Prop :=
  match e with
  | EvSetPixel px py b => 0 <= px <= 4 /\ 0 <= py <= 4 /\ 0 <= b <= 9
  | _ => True
  end.

(** The accelerometer never reports more than the threshold. *)
Definition calm (d : Device) : Prop :=
  forall n, accel_x_feed d n ^ 2 + accel_y_feed d n ^ 2 + accel_z_feed d n ^ 2
            <= Game.acceleration_needed_to_move
               * Game.acceleration_needed_to_move.


(** * The player of [MicroPickupCommented.py]

    The commented file differs from the other in its [Player] only: the
    class has one more field, [completion_time], which [reset] sets to 0,
    and [constrainToBoundaries] is a static method with the same body. *)

Module PlayerCommented.

Record t : Type := mk {
  position : Position;
  brightness : Z;
  completion_time : Z
}.

Definition init : t :=
  mk (mkPosition SCREEN_CENTER SCREEN_CENTER) 9 0.

Definition reset (self : t) : t :=
  mk (mkPosition SCREEN_CENTER SCREEN_CENTER) (brightness self) 0.

Definition constrainToBoundaries (value : Z) : Z :=
  if value <? MIN_POSITION then MIN_POSITION
  else if value >? MAX_POSITION then MAX_POSITION
  else value.

Definition move (self : t) (direction : string) : t :=
  let p := position self in
  if String.eqb direction "N" then
    mk (mkPosition (x p) (constrainToBoundaries (y p - 1)))
       (brightness self) (completion_time self)
  else if String.eqb direction "S" then
    mk (mkPosition (x p) (constrainToBoundaries (y p + 1)))
       (brightness self) (completion_time self)
  else if String.eqb direction "W" then
    mk (mkPosition (constrainToBoundaries (x p - 1)) (y p))
       (brightness self) (completion_time self)
  else if String.eqb direction "E" then
    mk (mkPosition (constrainToBoundaries (x p + 1)) (y p))
       (brightness self) (completion_time self)
  else self.

Definition draw (self : t) : IO unit :=
  draw_pixel (x (position self)) (y (position self)) (brightness self).

(** The part of the state both files have. *)
Definition plain (self : t) : GameObject :=
  mkGameObject (position self) (brightness self).

End PlayerCommented.

(** * Reasoning about [IO] *)

Lemma bind_run {A B} (m : IO A) (k : A -> IO B) (d : Device) :
  bind m k d = k (fst (m d)) (snd (m d)).
Proof. unfold bind. destruct (m d); reflexivity. Qed.

Lemma ret_run {A} (a : A) (d : Device) : ret a d = (a, d).
Proof. reflexivity. Qed.

(** * Grid geometry *)

Import Player.

Lemma constrain_cases (v : Z) :
  (v < 0 /\ constrainToBoundaries v = 0) \/
  (0 <= v <= 4 /\ constrainToBoundaries v = v) \/
  (4 < v /\ constrainToBoundaries v = 4).
Proof.
  unfold constrainToBoundaries, MIN_POSITION, MAX_POSITION.
  destruct (Z.ltb_spec v 0) as [Hlo | Hlo]; [left; lia |].
  destruct (Z.gtb_spec v 4) as [Hhi | Hhi]; [right; right; lia |].
  right; left; lia.
Qed.

Lemma constrain_in_range (v : Z) : 0 <= constrainToBoundaries v <= 4.
Proof. destruct (constrain_cases v) as [H | [H | H]]; lia. Qed.

(** C7: [constrainToBoundaries] is idempotent, is the identity on [0..4],
    and saturates: below 0 it gives 0 and above 4 it gives 4. *)
Theorem constrainToBoundaries_idempotent_saturates (v : Z) :
  constrainToBoundaries (constrainToBoundaries v) = constrainToBoundaries v /\
  (0 <= v <= 4 -> constrainToBoundaries v = v) /\
  (v < 0 -> constrainToBoundaries v = 0) /\
  (v > 4 -> constrainToBoundaries v = 4).
Proof.
  split; [| split; [| split]].
  - destruct (constrain_cases (constrainToBoundaries v)) as [H | [H | H]];
      pose proof (constrain_in_range v); lia.
  - intros Hv. destruct (constrain_cases v) as [H | [H | H]]; lia.
  - intros Hv. destruct (constrain_cases v) as [H | [H | H]]; lia.
  - intros Hv. destruct (constrain_cases v) as [H | [H | H]]; lia.
Qed.

Lemma constrainToBoundaries_witness :
  constrainToBoundaries (constrainToBoundaries 7) = constrainToBoundaries 7 /\
  constrainToBoundaries 3 = 3 /\
  constrainToBoundaries (-2) = 0 /\
  constrainToBoundaries 9 = 4.
Proof.
  split; [| split; [| split]].
  - exact (proj1 (constrainToBoundaries_idempotent_saturates 7)).
  - apply (proj1 (proj2 (constrainToBoundaries_idempotent_saturates 3))). lia.
  - apply (proj1 (proj2 (proj2
             (constrainToBoundaries_idempotent_saturates (-2))))). lia.
  - apply (proj2 (proj2 (proj2
             (constrainToBoundaries_idempotent_saturates 9)))). lia.
Defined.

(** * Movement *)

Lemma move_N (p : GameObject) :
  move p "N" = mkGameObject
                 (mkPosition (x (position p))
                             (constrainToBoundaries (y (position p) - 1)))
                 (brightness p).
Proof. reflexivity. Qed.

Lemma move_S (p : GameObject) :
  move p "S" = mkGameObject
                 (mkPosition (x (position p))
                             (constrainToBoundaries (y (position p) + 1)))
                 (brightness p).
Proof. reflexivity. Qed.

Lemma move_W (p : GameObject) :
  move p "W" = mkGameObject
                 (mkPosition (constrainToBoundaries (x (position p) - 1))
                             (y (position p)))
                 (brightness p).
Proof. reflexivity. Qed.

Lemma move_E (p : GameObject) :
  move p "E" = mkGameObject
                 (mkPosition (constrainToBoundaries (x (position p) + 1))
                             (y (position p)))
                 (brightness p).
Proof. reflexivity. Qed.

(** Whatever the string, [move] is one of five things. *)
Lemma move_cases (p : GameObject) (d : string) :
  move p d = move p "N" \/ move p d = move p "S" \/ move p d = move p "W" \/
  move p d = move p "E" \/ move p d = p.
Proof.
  destruct (String.eqb d "N") eqn:EN;
    [apply String.eqb_eq in EN; subst d; left; reflexivity |].
  destruct (String.eqb d "S") eqn:ES;
    [apply String.eqb_eq in ES; subst d; right; left; reflexivity |].
  destruct (String.eqb d "W") eqn:EW;
    [apply String.eqb_eq in EW; subst d; right; right; left; reflexivity |].
  destruct (String.eqb d "E") eqn:EE;
    [apply String.eqb_eq in EE; subst d; do 3 right; left; reflexivity |].
  do 4 right. unfold move. rewrite EN, ES, EW, EE. reflexivity.
Qed.

Lemma move_brightness (p : GameObject) (d : string) :
  brightness (move p d) = brightness p.
Proof.
  destruct (move_cases p d) as [H | [H | [H | [H | H]]]]; rewrite H;
    reflexivity.
Qed.

Lemma move_in_grid (p : GameObject) (d : string) :
  in_grid (position p) -> in_grid (position (move p d)).
Proof.
  unfold in_grid, MIN_POSITION, MAX_POSITION. intros Hp.
  destruct (move_cases p d) as [H | [H | [H | [H | H]]]]; rewrite H;
    rewrite ?move_N, ?move_S, ?move_W, ?move_E; cbn [position x y];
    try pose proof (constrain_in_range (y (position p) - 1));
    try pose proof (constrain_in_range (y (position p) + 1));
    try pose proof (constrain_in_range (x (position p) - 1));
    try pose proof (constrain_in_range (x (position p) + 1)); lia.
Qed.

(** C6: [move] shifts one coordinate by one cell towards the given
    direction and saturates at the border: at [x = 0] a move West and at
    [x = 4] a move East leave the player where it is, for every [y]; with
    the empty direction nothing changes; brightness is never touched. *)
Theorem move_one_cell_saturating (p : GameObject) :
  (x (position p) = 0 -> move p "W" = p) /\
  (x (position p) = 4 -> move p "E" = p) /\
  move p "" = p /\
  (in_grid (position p) ->
   position (move p "N") =
     mkPosition (x (position p)) (Z.max 0 (y (position p) - 1)) /\
   position (move p "S") =
     mkPosition (x (position p)) (Z.min 4 (y (position p) + 1)) /\
   position (move p "W") =
     mkPosition (Z.max 0 (x (position p) - 1)) (y (position p)) /\
   position (move p "E") =
     mkPosition (Z.min 4 (x (position p) + 1)) (y (position p))) /\
  (forall d, brightness (move p d) = brightness p).
Proof.
  destruct p as [[px py] b]. cbn [position x y brightness].
  split; [| split; [| split; [| split]]].
  - intros ->. rewrite move_W. reflexivity.
  - intros ->. rewrite move_E. reflexivity.
  - reflexivity.
  - unfold in_grid, MIN_POSITION, MAX_POSITION. cbn [x y]. intros [Hx Hy].
    rewrite move_N, move_S, move_W, move_E. cbn [position x y].
    destruct (constrain_cases (py - 1)) as [H | [H | H]];
      destruct (constrain_cases (py + 1)) as [H1 | [H1 | H1]];
      destruct (constrain_cases (px - 1)) as [H2 | [H2 | H2]];
      destruct (constrain_cases (px + 1)) as [H3 | [H3 | H3]];
      try lia;
      destruct H as [? ->]; destruct H1 as [? ->];
      destruct H2 as [? ->]; destruct H3 as [? ->];
      repeat split; f_equal; lia.
  - intros d. apply (move_brightness (mkGameObject (mkPosition px py) b)).
Qed.

Lemma move_one_cell_witness :
  move (player_at 0 3) "W" = player_at 0 3 /\
  move (player_at 4 1) "E" = player_at 4 1 /\
  position (move (player_at 2 2) "N") = mkPosition 2 1.
Proof.
  split; [| split].
  - apply (proj1 (move_one_cell_saturating (player_at 0 3))). reflexivity.
  - apply (proj1 (proj2 (move_one_cell_saturating (player_at 4 1)))).
    reflexivity.
  - apply (proj1 (proj2 (proj2 (proj2
             (move_one_cell_saturating (player_at 2 2)))))).
    unfold in_grid, MIN_POSITION, MAX_POSITION. cbn. lia.
Defined.

Lemma preserves_ret {X A} (proj : Device -> X) (a : A) :
  preserves proj (ret a).
Proof. intros d. reflexivity. Qed.

Lemma preserves_bind {X A B} (proj : Device -> X) (m : IO A) (k : A -> IO B) :
  preserves proj m -> (forall a, preserves proj (k a)) ->
  preserves proj (bind m k).
Proof.
  intros Hm Hk d. rewrite bind_run. rewrite Hk. apply Hm.
Qed.

Lemma preserves_if {X A} (proj : Device -> X) (b : bool) (m1 m2 : IO A) :
  preserves proj m1 -> preserves proj m2 ->
  preserves proj (if b then m1 else m2).
Proof. destruct b; auto. Qed.

(** * What a computation leaves alone *)

Create HintDb io_frame.

#[local] Hint Resolve preserves_ret preserves_bind preserves_if : io_frame.

Ltac frame_prim := intros d; reflexivity.

Lemma heading_keeps_accel_x : preserves accel_x_feed compass_heading.
Proof. frame_prim. Qed.
Lemma heading_keeps_accel_y : preserves accel_y_feed compass_heading.
Proof. frame_prim. Qed.
Lemma heading_keeps_accel_z : preserves accel_z_feed compass_heading.
Proof. frame_prim. Qed.
Lemma heading_keeps_clock : preserves clock_feed compass_heading.
Proof. frame_prim. Qed.
Lemma accel_x_keeps_clock : preserves clock_feed accelerometer_get_x.
Proof. frame_prim. Qed.
Lemma accel_y_keeps_clock : preserves clock_feed accelerometer_get_y.
Proof. frame_prim. Qed.
Lemma accel_z_keeps_clock : preserves clock_feed accelerometer_get_z.
Proof. frame_prim. Qed.
Lemma button_a_keeps_clock : preserves clock_feed button_a_was_pressed.
Proof. frame_prim. Qed.
Lemma button_b_keeps_clock : preserves clock_feed button_b_was_pressed.
Proof. frame_prim. Qed.
Lemma calibrate_keeps_clock : preserves clock_feed compass_calibrate.
Proof. frame_prim. Qed.
Lemma emit_keeps_clock (e : Event) : preserves clock_feed (emit e).
Proof. frame_prim. Qed.

#[local] Hint Resolve heading_keeps_accel_x heading_keeps_accel_y
  heading_keeps_accel_z heading_keeps_clock accel_x_keeps_clock
  accel_y_keeps_clock accel_z_keeps_clock button_a_keeps_clock
  button_b_keeps_clock calibrate_keeps_clock emit_keeps_clock : io_frame.

Ltac frame :=
  unfold Game.findApproxFacingDirection, Game.getAcceleration, orM, andM,
    Game.draw, Game.drawPickups, Player.draw, display_clear, draw_pixel,
    display_scroll, sleep;
  repeat (first [ apply preserves_bind; [| intros ?]
                | apply preserves_if
                | apply preserves_ret
                | solve [auto with io_frame] ]).

Lemma direction_keeps_accel_x :
  preserves accel_x_feed Game.findApproxFacingDirection.
Proof. frame. Qed.

Lemma direction_keeps_accel_y :
  preserves accel_y_feed Game.findApproxFacingDirection.
Proof. frame. Qed.

Lemma direction_keeps_accel_z :
  preserves accel_z_feed Game.findApproxFacingDirection.
Proof. frame. Qed.

Lemma direction_keeps_clock :
  preserves clock_feed Game.findApproxFacingDirection.
Proof. frame. Qed.

Lemma acceleration_keeps_clock : preserves clock_feed Game.getAcceleration.
Proof. frame. Qed.

Lemma getInput_keeps_clock (g : Game.t) :
  preserves clock_feed (Game.getInput g).
Proof.
  unfold Game.getInput.
  apply preserves_bind; [apply direction_keeps_clock | intros dir].
  apply preserves_bind; [apply acceleration_keeps_clock | intros acc].
  frame.
Qed.

Lemma drawPickups_keeps_clock (objs : nat -> GameObject) (l : list nat) :
  preserves clock_feed (Game.drawPickups_loop objs l).
Proof.
  induction l as [| r rest IH]; cbn [Game.drawPickups_loop]; [frame |].
  apply preserves_bind; [frame | intros _; exact IH].
Qed.

Lemma draw_keeps_clock (g : Game.t) : preserves clock_feed (Game.draw g).
Proof.
  unfold Game.draw, Game.drawPickups.
  apply preserves_bind; [frame | intros _].
  apply preserves_bind; [apply drawPickups_keeps_clock | intros _].
  frame.
Qed.

(** * Direction sensing *)

Lemma reads_as_ret {A} (h : Z) (v : A) : reads_as (ret v) h v.
Proof. intros d Hd. split; [reflexivity | exact Hd]. Qed.

Lemma reads_as_bind {A B} (m : IO A) (k : A -> IO B) (h : Z) (a : A) (b : B) :
  reads_as m h a -> reads_as (k a) h b -> reads_as (bind m k) h b.
Proof.
  intros Hm Hk d Hd. rewrite bind_run.
  destruct (Hm d Hd) as [Ea Hd']. rewrite Ea. apply Hk. exact Hd'.
Qed.

Lemma reads_as_heading (h : Z) : reads_as compass_heading h h.
Proof.
  intros d Hd. split.
  - apply Hd.
  - intros n. apply Hd.
Qed.

Lemma reads_as_test (f : Z -> bool) (h : Z) :
  reads_as (bind compass_heading (fun v => ret (f v))) h (f h).
Proof.
  apply reads_as_bind with (a := h);
    [apply reads_as_heading | apply reads_as_ret].
Qed.

Lemma reads_as_or (a b : IO bool) (h : Z) (va vb : bool) :
  reads_as a h va -> reads_as b h vb -> reads_as (orM a b) h (va || vb).
Proof.
  intros Ha Hb. unfold orM. apply reads_as_bind with (a := va); [exact Ha |].
  destruct va; [apply reads_as_ret | exact Hb].
Qed.

Lemma reads_as_and (a b : IO bool) (h : Z) (va vb : bool) :
  reads_as a h va -> reads_as b h vb -> reads_as (andM a b) h (va && vb).
Proof.
  intros Ha Hb. unfold andM. apply reads_as_bind with (a := va); [exact Ha |].
  destruct va; [exact Hb | apply reads_as_ret].
Qed.

Lemma findApproxFacingDirection_steady (h : Z) :
  reads_as Game.findApproxFacingDirection h (quantize h).
Proof.
  unfold Game.findApproxFacingDirection, quantize.
  eapply reads_as_bind;
    [apply reads_as_or; apply reads_as_test with (f := fun v => _) |].
  cbv beta. destruct ((h >? 315) || (h <? 45)); [apply reads_as_ret |].
  eapply reads_as_bind;
    [apply reads_as_and; apply reads_as_test with (f := fun v => _) |].
  cbv beta. destruct ((h >? 225) && (h <? 315)); [apply reads_as_ret |].
  eapply reads_as_bind;
    [apply reads_as_and; apply reads_as_test with (f := fun v => _) |].
  cbv beta. destruct ((h >? 135) && (h <? 225)); [apply reads_as_ret |].
  eapply reads_as_bind;
    [apply reads_as_and; apply reads_as_test with (f := fun v => _) |].
  cbv beta. destruct ((h >? 45) && (h <? 135)); apply reads_as_ret.
Qed.

Lemma quantize_table (h : Z) :
  (h > 315 \/ h < 45 -> quantize h = "N"%string) /\
  (225 < h < 315 -> quantize h = "W"%string) /\
  (135 < h < 225 -> quantize h = "S"%string) /\
  (45 < h < 135 -> quantize h = "E"%string) /\
  (h = 45 \/ h = 135 \/ h = 225 \/ h = 315 -> quantize h = ""%string).
Proof.
  unfold quantize.
  destruct (Z.gtb_spec h 315), (Z.ltb_spec h 45), (Z.gtb_spec h 225),
    (Z.ltb_spec h 315), (Z.gtb_spec h 135), (Z.ltb_spec h 225),
    (Z.gtb_spec h 45), (Z.ltb_spec h 135); cbn [orb andb];
    repeat split; intros; try reflexivity; lia.
Qed.

(** C2: with the compass reporting the heading [h] throughout the call,
    [findApproxFacingDirection] returns "N" for [h > 315] or [h < 45], "W"
    for [225 < h < 315], "S" for [135 < h < 225], "E" for [45 < h < 135],
    and the empty string at 45, 135, 225 and 315. *)
Theorem findApproxFacingDirection_table (dev : Device) (h : Z) :
  steady_heading dev h ->
  let direction := fst (Game.findApproxFacingDirection dev) in
  (h > 315 \/ h < 45 -> direction = "N"%string) /\
  (225 < h < 315 -> direction = "W"%string) /\
  (135 < h < 225 -> direction = "S"%string) /\
  (45 < h < 135 -> direction = "E"%string) /\
  (h = 45 \/ h = 135 \/ h = 225 \/ h = 315 -> direction = ""%string).
Proof.
  intros Hd direction.
  assert (direction = quantize h) as ->
      by apply (findApproxFacingDirection_steady h dev Hd).
  apply quantize_table.
Qed.

Lemma still_device_steady (h ax ay az now rnd : Z) :
  steady_heading (still_device h ax ay az now rnd) h.
Proof. intros n. reflexivity. Defined.

Lemma findApproxFacingDirection_witness :
  fst (Game.findApproxFacingDirection (still_device 10 0 0 0 0 0)) = "N"%string /\
  fst (Game.findApproxFacingDirection (still_device 100 0 0 0 0 0)) = "E"%string /\
  fst (Game.findApproxFacingDirection (still_device 200 0 0 0 0 0)) = "S"%string /\
  fst (Game.findApproxFacingDirection (still_device 280 0 0 0 0 0)) = "W"%string /\
  fst (Game.findApproxFacingDirection (still_device 45 0 0 0 0 0)) = ""%string.
Proof.
  split; [| split; [| split; [| split]]].
  - apply (findApproxFacingDirection_table (still_device 10 0 0 0 0 0) 10
             (still_device_steady 10 0 0 0 0 0)). lia.
  - apply (findApproxFacingDirection_table (still_device 100 0 0 0 0 0) 100
             (still_device_steady 100 0 0 0 0 0)). lia.
  - apply (findApproxFacingDirection_table (still_device 200 0 0 0 0 0) 200
             (still_device_steady 200 0 0 0 0 0)). lia.
  - apply (findApproxFacingDirection_table (still_device 280 0 0 0 0 0) 280
             (still_device_steady 280 0 0 0 0 0)). lia.
  - apply (findApproxFacingDirection_table (still_device 45 0 0 0 0 0) 45
             (still_device_steady 45 0 0 0 0 0)). lia.
Defined.

(** * Motion trigger *)

(** The integer test of [surd_gtb] decides the comparison of real numbers. *)
Lemma surd_gtb_spec (s : Surd) (k : Z) :
  surd_gtb s k = true <-> (IZR k < surd_value s)%R.
Proof.
  unfold surd_gtb, surd_value. destruct s as [n]. cbn [radicand].
  destruct (Z.ltb_spec k 0) as [Hk | Hk].
  - split; [intros _ | reflexivity].
    apply Rlt_le_trans with (r2 := 0%R); [apply IZR_lt; exact Hk |].
    apply sqrt_pos.
  - assert (IZR k = sqrt (IZR (k * k))) as Hroot.
    { rewrite mult_IZR. symmetry. apply sqrt_square. apply IZR_le. exact Hk. }
    split.
    + intros H. apply Z.ltb_lt in H. rewrite Hroot. apply sqrt_lt_1.
      * apply IZR_le. nia.
      * apply IZR_le. nia.
      * apply IZR_lt. exact H.
    + intros H. apply Z.ltb_lt. destruct (Z.lt_ge_cases (k * k) n) as [Hlt | Hge];
        [exact Hlt | exfalso].
      apply (Rlt_irrefl (IZR k)). apply Rlt_le_trans with (1 := H).
      rewrite Hroot. apply sqrt_le_1_alt. apply IZR_le. exact Hge.
Qed.

Section Rounding.

(** A floating-point unit returns the rounding of the exact result.
    Rounding never reorders two numbers and leaves alone the numbers the
    format holds; binary32 and binary64 both hold 1200, the next value
    [1200 + 2^-13] or one below it, and the integers around [1200^2]. *)
Variable rnd : R -> R.
Hypothesis rnd_monotone : forall a b : R, (a <= b)%R -> (rnd a <= rnd b)%R.
Hypothesis rnd_1200 : rnd 1200 = 1200%R.
Hypothesis rnd_above : rnd (1200 + / 8192) = (1200 + / 8192)%R.
Hypothesis rnd_square : rnd 1440000 = 1440000%R.
Hypothesis rnd_square_succ : rnd 1440001 = 1440001%R.

(** With such a rounding after the conversion of the sum to a float and
    after the square root, the test gives what [surd_gtb] gives. *)
Lemma rounded_sqrt_threshold (n : Z) :
  (1200 < rnd (sqrt (rnd (IZR n))))%R <->
  surd_gtb (math_sqrt n) Game.acceleration_needed_to_move = true.
Proof.
  unfold surd_gtb, math_sqrt, Game.acceleration_needed_to_move.
  cbn [radicand]. change (1200 <? 0) with false. cbv iota.
  change (1200 * 1200) with 1440000.
  assert (sqrt 1440000 = 1200%R) as Hroot.
  { replace 1440000%R with (1200 * 1200)%R by lra. apply sqrt_square. lra. }
  split.
  - intros H. apply Z.ltb_lt.
    destruct (Z.lt_ge_cases 1440000 n) as [Hlt | Hge]; [exact Hlt | exfalso].
    apply (Rlt_irrefl 1200). apply Rlt_le_trans with (1 := H).
    rewrite <- rnd_1200 at 1. apply rnd_monotone.
    rewrite <- Hroot. apply sqrt_le_1_alt.
    rewrite <- rnd_square. apply rnd_monotone. apply IZR_le. exact Hge.
  - intros H. apply Z.ltb_lt in H.
    apply Rlt_le_trans with (r2 := (1200 + / 8192)%R); [lra |].
    rewrite <- rnd_above. apply rnd_monotone.
    apply Rle_trans with (r2 := sqrt 1440001).
    + replace (1200 + / 8192)%R
        with (sqrt ((1200 + / 8192) * (1200 + / 8192)))
        by (apply sqrt_square; lra).
      apply sqrt_le_1_alt. lra.
    + apply sqrt_le_1_alt. rewrite <- rnd_square_succ. apply rnd_monotone.
      apply IZR_le. lia.
Qed.

End Rounding.

Lemma getAcceleration_run (dev : Device) :
  fst (Game.getAcceleration dev) =
    math_sqrt (feed_head (accel_x_feed dev) ^ 2 +
               feed_head (accel_y_feed dev) ^ 2 +
               feed_head (accel_z_feed dev) ^ 2).
Proof. reflexivity. Qed.

(** What [getInput] does to the game: the direction is sensed first, then
    the acceleration decides whether [move] is called. *)
Lemma getInput_game (g : Game.t) (dev : Device) :
  fst (Game.getInput g dev) =
    if surd_gtb (fst (Game.getAcceleration
                        (snd (Game.findApproxFacingDirection dev))))
                Game.acceleration_needed_to_move
    then Game.set_player g
           (move (Game.player g) (fst (Game.findApproxFacingDirection dev)))
    else g.
Proof.
  unfold Game.getInput. rewrite bind_run. rewrite bind_run. cbv beta zeta.
  rewrite bind_run. rewrite bind_run. reflexivity.
Qed.

(** C3: [getInput] calls [move] exactly when the Euclidean magnitude
    [sqrt (x^2 + y^2 + z^2)] of the three axis readings is strictly above
    1200: above it the player is moved in the sensed direction, otherwise
    the game is left as it was. *)
Theorem motion_trigger_threshold (g : Game.t) (dev : Device) :
  let ax := feed_head (accel_x_feed dev) in
  let ay := feed_head (accel_y_feed dev) in
  let az := feed_head (accel_z_feed dev) in
  let magnitude := sqrt (IZR (ax ^ 2 + ay ^ 2 + az ^ 2)) in
  let direction := fst (Game.findApproxFacingDirection dev) in
  ((1200 < magnitude)%R ->
   fst (Game.getInput g dev) =
     Game.set_player g (move (Game.player g) direction)) /\
  (~ (1200 < magnitude)%R -> fst (Game.getInput g dev) = g).
Proof.
  intros ax ay az magnitude direction.
  rewrite getInput_game, getAcceleration_run.
  rewrite direction_keeps_accel_x, direction_keeps_accel_y,
    direction_keeps_accel_z.
  fold ax ay az direction.
  pose proof (surd_gtb_spec (math_sqrt (ax ^ 2 + ay ^ 2 + az ^ 2))
                Game.acceleration_needed_to_move) as Hspec.
  change (surd_value (math_sqrt (ax ^ 2 + ay ^ 2 + az ^ 2))) with magnitude
    in Hspec.
  change (IZR Game.acceleration_needed_to_move) with 1200%R in Hspec.
  destruct (surd_gtb (math_sqrt (ax ^ 2 + ay ^ 2 + az ^ 2))
              Game.acceleration_needed_to_move).
  - split; [reflexivity |]. intros Hn. exfalso. apply Hn, Hspec. reflexivity.
  - split; [| reflexivity]. intros Hm. apply Hspec in Hm. discriminate Hm.
Qed.

Lemma magnitude_1201_above :
  (1200 < sqrt (IZR (1201 ^ 2 + 0 ^ 2 + 0 ^ 2)))%R.
Proof. apply (surd_gtb_spec (math_sqrt (1201 ^ 2 + 0 ^ 2 + 0 ^ 2)) 1200).
  reflexivity. Defined.

Lemma magnitude_1200_not_above :
  ~ (1200 < sqrt (IZR (1200 ^ 2 + 0 ^ 2 + 0 ^ 2)))%R.
Proof.
  intros H.
  apply (surd_gtb_spec (math_sqrt (1200 ^ 2 + 0 ^ 2 + 0 ^ 2)) 1200) in H.
  discriminate H.
Defined.

Lemma magnitude_1000_not_above :
  ~ (1200 < sqrt (IZR (1000 ^ 2 + 0 ^ 2 + 0 ^ 2)))%R.
Proof.
  intros H.
  apply (surd_gtb_spec (math_sqrt (1000 ^ 2 + 0 ^ 2 + 0 ^ 2)) 1200) in H.
  discriminate H.
Defined.

Lemma motion_trigger_witness :
  Game.player (fst (Game.getInput (game_with (player_at 2 2) [])
                      (still_device 10 1201 0 0 0 0))) = player_at 2 1 /\
  Game.player (fst (Game.getInput (game_with (player_at 2 2) [])
                      (still_device 10 1200 0 0 0 0))) = player_at 2 2 /\
  Game.player (fst (Game.getInput (game_with (player_at 2 2) [])
                      (still_device 10 1000 0 0 0 0))) = player_at 2 2.
Proof.
  split; [| split].
  - rewrite (proj1 (motion_trigger_threshold (game_with (player_at 2 2) [])
                      (still_device 10 1201 0 0 0 0)) magnitude_1201_above).
    reflexivity.
  - rewrite (proj2 (motion_trigger_threshold (game_with (player_at 2 2) [])
                      (still_device 10 1200 0 0 0 0))
                   magnitude_1200_not_above).
    reflexivity.
  - rewrite (proj2 (motion_trigger_threshold (game_with (player_at 2 2) [])
                      (still_device 10 1000 0 0 0 0))
                   magnitude_1000_not_above).
    reflexivity.
Defined.

(** * Elapsed time *)

(** ** The float quotient

    [true_div d 1000] is followed through the definitions of [spec_float]:
    the conversion of [d], the division of the two mantissas, and the
    rounding of the quotient to 24 bits. *)

Lemma digits2_size (p : positive) : digits2_pos p = Pos.size p.
Proof. induction p; cbn; congruence. Qed.

Lemma digits2_log2 (p : positive) : Zpos (digits2_pos p) = Z.log2 (Zpos p) + 1.
Proof.
  rewrite digits2_size. destruct p; cbn [Z.log2 Pos.size]; lia.
Qed.

Lemma digits2_of_range (p : positive) (k : Z) :
  0 < k -> 2 ^ (k - 1) <= Zpos p < 2 ^ k -> Zpos (digits2_pos p) = k.
Proof.
  intros Hk Hr. rewrite digits2_log2.
  rewrite (Z.log2_unique (Zpos p) (k - 1)); [lia | lia |].
  replace (Z.succ (k - 1)) with k by lia. exact Hr.
Qed.

Lemma digits2_range (p : positive) :
  2 ^ (Zpos (digits2_pos p) - 1) <= Zpos p < 2 ^ Zpos (digits2_pos p).
Proof.
  rewrite digits2_log2. replace (Z.log2 (Zpos p) + 1 - 1) with (Z.log2 (Zpos p)) by lia.
  replace (Z.log2 (Zpos p) + 1) with (Z.succ (Z.log2 (Zpos p))) by lia.
  apply Z.log2_spec. lia.
Qed.

Lemma iter_xO (m n : positive) : Zpos (Pos.iter xO m n) = Zpos m * 2 ^ Zpos n.
Proof.
  induction n as [| n IH] using Pos.peano_ind.
  - cbn. lia.
  - rewrite Pos.iter_succ. rewrite Pos2Z.inj_xO, IH.
    rewrite Pos2Z.inj_succ, Z.pow_succ_r by lia. lia.
Qed.

Lemma binary_round_aux_exact (s : bool) (m : positive) (e : Z) :
  Zpos (digits2_pos m) = 24 -> -149 <= e <= 104 ->
  binary_round_aux float_prec float_emax s (Zpos m) e loc_Exact = S754_finite s m e.
Proof.
  intros Hd He. unfold binary_round_aux, shr_fexp. cbn [Zdigits2 shr_record_of_loc].
  rewrite Hd.
  assert (fexp float_prec float_emax (24 + e) - e = 0) as ->
      by (unfold fexp, emin, float_prec, float_emax; lia).
  cbn [shr shr_m loc_of_shr_record round_nearest_even Zdigits2 shr_record_of_loc].
  rewrite Hd.
  assert (fexp float_prec float_emax (24 + e) - e = 0) as ->
      by (unfold fexp, emin, float_prec, float_emax; lia).
  cbn [shr shr_m].
  unfold float_emax, float_prec.
  destruct (Z.leb_spec e (128 - 24)); [reflexivity | lia].
Qed.

Lemma float_of_int_normal (d : Z) :
  0 < d < 2 ^ 24 ->
  exists mx ex,
    float_of_int d = S754_finite false mx ex /\
    -23 <= ex <= 0 /\ Zpos mx = d * 2 ^ (- ex) /\
    Zpos (digits2_pos mx) = 24.
Proof.
  intros Hd. destruct d as [| p | p]; try lia.
  unfold float_of_int, binary_normalize, binary_round.
  pose proof (digits2_range p) as Hr.
  set (k := Zpos (digits2_pos p)) in *.
  assert (1 <= k) as Hk1 by (unfold k; lia).
  assert (k <= 24) as Hk24.
  { destruct (Z.le_gt_cases k 24) as [H | H]; [exact H | exfalso].
    assert (2 ^ 24 <= 2 ^ (k - 1)) by (apply Z.pow_le_mono_r; lia). lia. }
  assert (fexp float_prec float_emax (k + 0) = k - 24) as ->
      by (unfold fexp, emin, float_prec, float_emax; lia).
  unfold shl_align.
  destruct (k - 24 - 0) as [| c | c] eqn:Hc; try lia.
  - exists p, 0. split; [| split; [lia | split; [cbn; lia | fold k; lia]]].
    apply binary_round_aux_exact; [fold k; lia | lia].
  - exists (Pos.iter xO p c), (k - 24).
    assert (Zpos (Pos.iter xO p c) = Zpos p * 2 ^ (24 - k)) as Hm
        by (rewrite iter_xO; f_equal; f_equal; lia).
    assert (Zpos (digits2_pos (Pos.iter xO p c)) = 24) as Hdig.
    { apply digits2_of_range; [lia |]. rewrite Hm.
      replace (2 ^ (24 - 1)) with (2 ^ (k - 1) * 2 ^ (24 - k))
        by (rewrite <- Z.pow_add_r by lia; f_equal; lia).
      replace (2 ^ 24) with (2 ^ k * 2 ^ (24 - k))
        by (rewrite <- Z.pow_add_r by lia; f_equal; lia).
      assert (0 < 2 ^ (24 - k)) by (apply Z.pow_pos_nonneg; lia). nia. }
    split; [| split; [lia | split; [| exact Hdig]]].
    + apply binary_round_aux_exact; [exact Hdig | lia].
    + rewrite Hm. f_equal. f_equal. lia.
Qed.

Lemma fexp_small (e : Z) : -125 <= e -> fexp float_prec float_emax e = e - 24.
Proof. intros He. unfold fexp, emin, float_prec, float_emax. lia. Qed.

Lemma shr_fexp_24 (p : positive) (E : Z) (l : location) :
  Zpos (digits2_pos p) = 24 -> -100 <= E ->
  shr_fexp float_prec float_emax (Zpos p) E l = (shr_record_of_loc (Zpos p) l, E).
Proof.
  intros Hd HE. unfold shr_fexp. cbn [Zdigits2]. rewrite Hd.
  rewrite fexp_small by lia. replace (24 + E - 24 - E) with 0 by lia.
  reflexivity.
Qed.

Lemma shr_fexp_25 (p : positive) (E : Z) (l : location) :
  Zpos (digits2_pos p) = 25 -> -100 <= E ->
  shr_fexp float_prec float_emax (Zpos p) E l =
    (shr_1 (shr_record_of_loc (Zpos p) l), E + 1).
Proof.
  intros Hd HE. unfold shr_fexp. cbn [Zdigits2]. rewrite Hd.
  rewrite fexp_small by lia. replace (25 + E - 24 - E) with 1 by lia.
  reflexivity.
Qed.

Lemma loc_of_shr_record_of_loc (m : Z) (l : location) :
  loc_of_shr_record (shr_record_of_loc m l) = l.
Proof. destruct l as [| []]; reflexivity. Qed.

Lemma shr_m_of_loc (m : Z) (l : location) : shr_m (shr_record_of_loc m l) = m.
Proof. destruct l as [| []]; reflexivity. Qed.

Lemma shr_1_m (mrs : shr_record) :
  0 <= shr_m mrs -> shr_m (shr_1 mrs) = shr_m mrs / 2.
Proof.
  destruct mrs as [m r s]. cbn [shr_m]. intros Hm.
  destruct m as [| [p | p |] |]; cbn [shr_1 shr_m]; try lia;
    try reflexivity; Z.div_mod_to_equations; lia.
Qed.

(** The last two steps of [binary_round_aux] on a mantissa between 2^23
    and 2^24 inclusive. *)
Lemma round_tail (m1 E1 : Z) :
  2 ^ 23 <= m1 <= 2 ^ 24 -> -100 <= E1 <= 100 ->
  int_of
    (let '(mrs, e) := shr_fexp float_prec float_emax m1 E1 loc_Exact in
     match shr_m mrs with
     | Z0 => S754_zero false
     | Zpos m => if Z.leb e (float_emax - float_prec)
                 then S754_finite false m e else S754_infinity false
     | Zneg _ => S754_nan
     end) = Z.shiftl m1 E1.
Proof.
  intros Hm HE. destruct m1 as [| p |]; try lia.
  destruct (Z.eq_dec (Zpos p) (2 ^ 24)) as [Heq | Hne].
  - assert (p = 16777216%positive) as -> by lia.
    rewrite shr_fexp_25 by (try reflexivity; lia).
    cbn [shr_record_of_loc shr_1 shr_m].
    unfold float_emax, float_prec.
    destruct (Z.leb_spec (E1 + 1) (128 - 24)); [| lia].
    cbn [int_of cond_Zopp].
    change (Zpos 16777216) with (Z.shiftl 8388608 1).
    rewrite Z.shiftl_shiftl by lia. f_equal. lia.
  - rewrite shr_fexp_24 by (try lia; apply digits2_of_range; lia).
    cbn [shr_record_of_loc shr_m].
    unfold float_emax, float_prec.
    destruct (Z.leb_spec E1 (128 - 24)); [| lia].
    reflexivity.
Qed.

Lemma round_nearest_even_cases (m : Z) (l : location) :
  round_nearest_even m l = m \/
  (round_nearest_even m l = m + 1 /\
   (l = loc_Inexact Gt \/ (l = loc_Inexact Eq /\ Z.even m = false))).
Proof.
  destruct l as [| []]; cbn [round_nearest_even]; auto.
  destruct (Z.even m); auto.
Qed.

Lemma binary_round_aux_int (q E : Z) (l : location) :
  2 ^ 23 <= q < 2 ^ 25 -> -90 <= E <= 90 ->
  int_of (binary_round_aux float_prec float_emax false q E l) =
    if q <? 2 ^ 24
    then Z.shiftl (round_nearest_even q l) E
    else Z.shiftl (round_nearest_even (q / 2)
                     (loc_of_shr_record (shr_1 (shr_record_of_loc q l))))
                  (E + 1).
Proof.
  intros Hq HE. destruct q as [| p |]; try lia.
  unfold binary_round_aux.
  destruct (Z.ltb_spec (Zpos p) (2 ^ 24)) as [Hlt | Hge].
  - rewrite shr_fexp_24 by (try lia; apply digits2_of_range; lia).
    rewrite loc_of_shr_record_of_loc, shr_m_of_loc.
    apply round_tail; [| lia].
    destruct (round_nearest_even_cases (Zpos p) l) as [-> | [-> _]]; lia.
  - rewrite shr_fexp_25 by (try lia; apply digits2_of_range; lia).
    rewrite shr_1_m by (rewrite shr_m_of_loc; lia).
    rewrite shr_m_of_loc.
    apply round_tail; [| lia].
    assert (2 ^ 23 <= Zpos p / 2 < 2 ^ 24).
    { split; [apply Z.div_le_lower_bound; lia
             | apply Z.div_lt_upper_bound; lia]. }
    destruct (round_nearest_even_cases (Zpos p / 2)
                (loc_of_shr_record (shr_1 (shr_record_of_loc (Zpos p) l))))
      as [-> | [-> _]]; lia.
Qed.

Lemma true_div_core (mx : positive) (ex : Z) :
  Zpos (digits2_pos mx) = 24 -> -23 <= ex <= 0 ->
  SFdiv float_prec float_emax (S754_finite false mx ex) (float_of_int 1000) =
    binary_round_aux float_prec float_emax false
      (Zpos mx * 2 ^ 24 / 16384000) (ex - 10)
      (new_location 16384000 ((Zpos mx * 2 ^ 24) mod 16384000)).
Proof.
  intros Hd He.
  change (float_of_int 1000) with (S754_finite false 16384000 (-14)).
  unfold SFdiv, SFdiv_core_binary. cbn [Zdigits2 xorb]. rewrite Hd.
  change (Zpos (digits2_pos 16384000)) with 24.
  rewrite fexp_small by lia.
  replace (Z.min (24 + ex - (24 + -14) - 24) (ex - -14)) with (ex - 10) by lia.
  replace (ex - -14 - (ex - 10)) with 24 by lia.
  cbv iota. rewrite Z.shiftl_mul_pow2 by lia.
  unfold Z.div, Z.modulo.
  destruct (Z.div_eucl (Zpos mx * 2 ^ 24) 16384000) as [q r]. reflexivity.
Qed.

Lemma new_location_round_up (q r : Z) :
  0 <= r < 16384000 ->
  round_nearest_even q (new_location 16384000 r) = q \/
  (round_nearest_even q (new_location 16384000 r) = q + 1 /\
   16384000 <= 2 * r).
Proof.
  intros Hr. unfold new_location. change (Z.even 16384000) with true.
  cbv iota. unfold new_location_even.
  destruct (Z.eqb_spec r 0); [left; reflexivity |].
  destruct (Z.compare_spec (2 * r) 16384000) as [H | H | H];
    cbn [round_nearest_even]; auto.
  - destruct (Z.even q); [left; reflexivity | right; split; [reflexivity | lia]].
  - right. split; [reflexivity | lia].
Qed.

Lemma shifted_round_up (q : Z) (l : location) :
  0 < q ->
  let l' := loc_of_shr_record (shr_1 (shr_record_of_loc q l)) in
  round_nearest_even (q / 2) l' = q / 2 \/
  (round_nearest_even (q / 2) l' = q / 2 + 1 /\ Z.odd q = true).
Proof.
  intros Hq. cbv zeta.
  destruct q as [| [p | p |] |]; try lia; destruct l as [| []];
    cbn [shr_record_of_loc shr_1 loc_of_shr_record round_nearest_even orb];
    try (left; reflexivity);
    try (right; split; reflexivity);
    match goal with
    | |- context [if ?c then _ else _] => destruct c
    end; auto.
Qed.

Lemma scaled_quotient (d C : Z) :
  0 <= d -> 1000 < C ->
  exists t, (d * C) / 1000 = d / 1000 * C + t /\ 0 <= t /\ t + 1 < C.
Proof.
  intros Hd HC.
  pose proof (Z.div_mod d 1000 ltac:(lia)) as Hsplit.
  pose proof (Z.mod_pos_bound d 1000 ltac:(lia)) as Hrem.
  set (q0 := d / 1000) in *. set (r0 := d mod 1000) in *.
  exists ((r0 * C) / 1000).
  assert (0 <= r0 * C) by nia.
  assert (r0 * C <= 999 * C) by nia.
  split; [| split].
  - replace (d * C) with (q0 * C * 1000 + r0 * C) by (rewrite Hsplit; ring).
    rewrite Z.div_add_l by lia. reflexivity.
  - apply Z.div_pos; lia.
  - assert ((r0 * C) / 1000 <= (999 * C) / 1000)
      by (apply Z.div_le_mono; lia).
    Z.div_mod_to_equations. lia.
Qed.

Lemma whole_part_24 (d C q delta : Z) :
  0 <= d -> 1000 < C -> q = (d * C) / 1000 -> 0 <= delta <= 1 ->
  (q + delta) / C = d / 1000.
Proof.
  intros Hd HC -> Hdelta.
  destruct (scaled_quotient d C Hd HC) as (t & -> & Ht0 & Ht1).
  symmetry. apply Z.div_unique with (r := t + delta); lia.
Qed.

Lemma whole_part_25 (d C' q delta : Z) :
  0 <= d -> 500 < C' -> q = (d * (2 * C')) / 1000 -> 0 <= delta <= 1 ->
  (delta = 1 -> Z.odd q = true) ->
  (q / 2 + delta) / C' = d / 1000.
Proof.
  intros Hd HC Hq Hdelta Hodd.
  destruct (scaled_quotient d (2 * C') Hd ltac:(lia)) as (t & Ht & Ht0 & Ht1).
  rewrite Ht in Hq.
  pose proof (Z.div_mod q 2 ltac:(lia)) as Hsplit.
  pose proof (Z.mod_pos_bound q 2 ltac:(lia)) as Hrem.
  assert (delta = 1 -> q mod 2 = 1) as Hbit.
  { intros H1. specialize (Hodd H1). rewrite Zodd_mod in Hodd.
    apply Z.eqb_eq in Hodd. exact Hodd. }
  symmetry.
  apply Z.div_unique with (r := q / 2 + delta - d / 1000 * C'); [| lia].
  left. nia.
Qed.

(** Below 2^24 the float quotient by 1000, cut to an integer, is the
    integer quotient: the conversion is exact, and the rounding of the
    division never reaches the next whole number. *)
Lemma int_of_true_div_1000 (d : Z) :
  0 <= d < 2 ^ 24 -> int_of (true_div d 1000) = d / 1000.
Proof.
  intros Hd. destruct (Z.eq_dec d 0) as [-> | Hne]; [reflexivity |].
  destruct (float_of_int_normal d ltac:(lia)) as (mx & ex & Hf & Hex & Hmx & Hdig).
  unfold true_div. rewrite Hf, (true_div_core mx ex Hdig Hex).
  pose proof (digits2_range mx) as Hrange. rewrite Hdig in Hrange.
  set (C := 2 ^ (10 - ex)).
  assert (1000 < C) as HC.
  { assert (2 ^ 10 <= C) by (apply Z.pow_le_mono_r; lia). lia. }
  assert (Zpos mx * 2 ^ 24 / 16384000 = (d * C) / 1000) as Hq.
  { rewrite Hmx. unfold C.
    replace (d * 2 ^ (- ex) * 2 ^ 24) with (d * 2 ^ (10 - ex) * 2 ^ 14).
    - change 16384000 with (1000 * 2 ^ 14).
      apply Z.div_mul_cancel_r; lia.
    - replace (10 - ex) with (- ex + 10) by lia.
      rewrite Z.pow_add_r by lia. change (2 ^ 24) with (2 ^ 10 * 2 ^ 14). ring. }
  set (q := Zpos mx * 2 ^ 24 / 16384000) in *.
  assert (2 ^ 23 <= q < 2 ^ 25) as Hqrange
      by (subst q; clear Hq; Z.div_mod_to_equations; lia).
  pose proof (Z.mod_pos_bound (Zpos mx * 2 ^ 24) 16384000 ltac:(lia)) as Hr.
  set (r := (Zpos mx * 2 ^ 24) mod 16384000) in *.
  rewrite binary_round_aux_int by lia.
  destruct (Z.ltb_spec q (2 ^ 24)) as [Hlt | Hge].
  - rewrite Z.shiftl_div_pow2 by lia.
    replace (- (ex - 10)) with (10 - ex) by lia. fold C.
    destruct (new_location_round_up q r Hr) as [-> | [-> _]].
    + replace q with (q + 0) at 1 by lia.
      apply (whole_part_24 d C q 0); lia.
    + apply (whole_part_24 d C q 1); lia.
  - rewrite Z.shiftl_div_pow2 by lia.
    replace (- (ex - 10 + 1)) with (9 - ex) by lia.
    assert (C = 2 * 2 ^ (9 - ex)) as HC2.
    { unfold C. replace (10 - ex) with (Z.succ (9 - ex)) by lia.
      apply Z.pow_succ_r. lia. }
    destruct (shifted_round_up q (new_location 16384000 r) ltac:(lia))
      as [-> | [-> Hodd]].
    + replace (q / 2) with (q / 2 + 0) at 1 by lia.
      apply (whole_part_25 d (2 ^ (9 - ex)) q 0); try lia.
      rewrite <- HC2. exact Hq.
    + apply (whole_part_25 d (2 ^ (9 - ex)) q 1); try lia.
      * rewrite <- HC2. exact Hq.
      * intros _. exact Hodd.
Qed.

Lemma time_message_text (start now : Z) :
  0 <= now - start < 2 ^ 24 ->
  time_message start now =
    ("TIME:" ++ str ((now - start) / 1000) ++ " SECONDS.")%string.
Proof.
  intros He. unfold time_message. rewrite int_of_true_div_1000 by exact He.
  reflexivity.
Qed.

(** The log after a tick that clears the level. *)
Lemma tick_log_complete (s : Loop) (dev : Device) :
  Game.isGameOver (Game.update (fst (Game.getInput (game s) dev))) = true ->
  exists rest,
    emitted (snd (tick s dev)) =
      EvSleep 100
      :: EvScroll (time_message (level_start_time s)
                                (feed_head (clock_feed dev)))
                  DEFAULT_SCROLL_DELAY
      :: rest.
Proof.
  intros Hover. unfold tick. rewrite bind_run. cbv zeta. rewrite bind_run.
  rewrite Hover. rewrite bind_run. rewrite bind_run. rewrite bind_run.
  rewrite bind_run. cbn [fst snd running_time display_scroll sleep emit ret
                           emitted].
  rewrite draw_keeps_clock, getInput_keeps_clock.
  eexists. reflexivity.
Qed.

(** C5, as amended: when a tick clears the level, the text scrolled is
    "TIME:", the number of whole seconds and " SECONDS."; the number is
    [int] of the float quotient of the clock reading minus the level's start
    time by 1000, and while that difference is at least 0 and below 2^24
    milliseconds it is the difference divided by 1000 with the fraction
    dropped. *)
Theorem elapsed_seconds_truncated (s : Loop) (dev : Device) :
  let start := level_start_time s in
  let now := feed_head (clock_feed dev) in
  Game.isGameOver (Game.update (fst (Game.getInput (game s) dev))) = true ->
  start <= now -> now - start < 2 ^ 24 ->
  (exists rest,
     emitted (snd (tick s dev)) =
       EvSleep 100
       :: EvScroll ("TIME:" ++ str (Z.quot (now - start) 1000) ++ " SECONDS.")
                   150
       :: rest) /\
  Z.quot (now - start) 1000 = (now - start) / 1000 /\
  1000 * Z.quot (now - start) 1000 <= now - start
    < 1000 * Z.quot (now - start) 1000 + 1000.
Proof.
  intros start now Hover Hle Hbound.
  assert (Z.quot (now - start) 1000 = (now - start) / 1000) as Hq
      by (apply Z.quot_div_nonneg; lia).
  split; [| split; [exact Hq |]].
  - destruct (tick_log_complete s dev Hover) as [rest Hlog].
    exists rest. rewrite Hlog, time_message_text by (fold start now; lia).
    fold start now. rewrite Hq. reflexivity.
  - rewrite Hq.
    pose proof (Z.div_mod (now - start) 1000 ltac:(lia)).
    pose proof (Z.mod_pos_bound (now - start) 1000 ltac:(lia)). lia.
Qed.

Lemma elapsed_seconds_witness :
  exists rest,
    emitted (snd (tick (mkLoop (game_with (player_at 2 2) [(2, 2)]) 4 1000
                               InnerLoop)
                       (still_device 10 0 0 0 3500 0))) =
      EvSleep 100 :: EvScroll "TIME:2 SECONDS." 150 :: rest.
Proof.
  refine (proj1 (elapsed_seconds_truncated
                   (mkLoop (game_with (player_at 2 2) [(2, 2)]) 4 1000
                           InnerLoop)
                   (still_device 10 0 0 0 3500 0) eq_refl _ _)).
  - vm_compute. discriminate.
  - reflexivity.
Defined.

(** C5, as stated, fails: after 16777999 ms, which is past 2^24, the
    conversion to a float rounds the difference to 16778000, and the level
    is reported to have taken 16778 seconds where the fraction dropped from
    16777.999 leaves 16777. *)
Lemma elapsed_seconds_rounded_up :
  level_start_time (mkLoop (game_with (player_at 2 2) [(2, 2)]) 4 0 InnerLoop)
    <= feed_head (clock_feed (still_device 10 0 0 0 16777999 0)) /\
  Game.isGameOver
    (Game.update
       (fst (Game.getInput (game_with (player_at 2 2) [(2, 2)])
               (still_device 10 0 0 0 16777999 0)))) = true /\
  Z.quot (16777999 - 0) 1000 = 16777 /\
  emitted (snd (tick (mkLoop (game_with (player_at 2 2) [(2, 2)]) 4 0
                             InnerLoop)
                     (still_device 10 0 0 0 16777999 0))) =
    [EvSleep 100; EvScroll "TIME:16778 SECONDS." 150; EvSetPixel 2 2 9;
     EvClear] /\
  ~ (exists rest,
       emitted (snd (tick (mkLoop (game_with (player_at 2 2) [(2, 2)]) 4 0
                                  InnerLoop)
                          (still_device 10 0 0 0 16777999 0))) =
         EvSleep 100
         :: EvScroll ("TIME:" ++ str (Z.quot (16777999 - 0) 1000)
                              ++ " SECONDS.") 150
         :: rest).
Proof.
  split; [vm_compute; discriminate |]. split; [reflexivity |].
  split; [reflexivity |]. split; [vm_compute; reflexivity |].
  intros [rest Hlog]. vm_compute in Hlog. discriminate Hlog.
Qed.

(** * Collision update *)

Lemma list_remove_count_other (r a : nat) (l : list nat) :
  a <> r ->
  count_occ Nat.eq_dec (list_remove r l) a = count_occ Nat.eq_dec l a.
Proof.
  intros Hne. induction l as [| b t IH]; [reflexivity |].
  cbn [list_remove]. destruct (Nat.eqb_spec b r) as [-> | Hb].
  - rewrite count_occ_cons_neq by congruence. reflexivity.
  - cbn [count_occ]. destruct (Nat.eq_dec b a); rewrite IH; reflexivity.
Qed.

Lemma list_remove_count_le (r a : nat) (l : list nat) :
  (count_occ Nat.eq_dec (list_remove r l) a <= count_occ Nat.eq_dec l a)%nat.
Proof.
  induction l as [| b t IH]; [apply Nat.le_refl |].
  cbn [list_remove]. destruct (Nat.eqb_spec b r) as [-> | Hb].
  - cbn [count_occ]. destruct (Nat.eq_dec r a); lia.
  - cbn [count_occ]. destruct (Nat.eq_dec b a); lia.
Qed.

Lemma list_remove_length (r : nat) (l : list nat) :
  (List.length (list_remove r l) <= List.length l)%nat.
Proof.
  induction l as [| b t IH]; [apply Nat.le_refl |].
  cbn [list_remove]. destruct (Nat.eqb b r); cbn [List.length]; lia.
Qed.

Section UpdateLoop.

Variable self : Game.t.

Lemma update_loop_count_le (fuel : nat) :
  forall (i : nat) (l : list nat) (a : nat),
    (count_occ Nat.eq_dec (Game.update_loop self fuel i l) a
     <= count_occ Nat.eq_dec l a)%nat.
Proof.
  induction fuel as [| f IH]; intros i l a; cbn [Game.update_loop];
    [apply Nat.le_refl |].
  destruct (nth_error l i) as [pickup |]; [| apply Nat.le_refl].
  destruct (Game.collides self pickup); [| apply IH].
  eapply Nat.le_trans; [apply IH | apply list_remove_count_le].
Qed.

Lemma update_loop_removed_collides (fuel : nat) :
  forall (i : nat) (l : list nat) (a : nat),
    (count_occ Nat.eq_dec (Game.update_loop self fuel i l) a
     < count_occ Nat.eq_dec l a)%nat ->
    Game.collides self a = true.
Proof.
  induction fuel as [| f IH]; intros i l a; cbn [Game.update_loop];
    [lia |].
  destruct (nth_error l i) as [pickup |]; [| lia].
  destruct (Game.collides self pickup) eqn:Hhit; [| apply IH].
  intros Hlt. destruct (Nat.eq_dec a pickup) as [-> | Hne];
    [exact Hhit |].
  apply (IH (S i) (list_remove pickup l) a).
  rewrite list_remove_count_other by exact Hne. exact Hlt.
Qed.

(** The loop leaves through the end of the list, not through the end of
    the fuel: [length l] rounds are enough, and more change nothing. *)
Lemma update_loop_enough_fuel (fuel : nat) :
  forall (i : nat) (l : list nat) (extra : nat),
    (List.length l <= i + fuel)%nat ->
    Game.update_loop self (fuel + extra) i l = Game.update_loop self fuel i l.
Proof.
  induction fuel as [| f IH]; intros i l extra Hlen.
  - cbn [Nat.add Game.update_loop]. destruct extra; [reflexivity |].
    cbn [Game.update_loop].
    rewrite (proj2 (nth_error_None l i)) by lia. reflexivity.
  - cbn [Nat.add Game.update_loop].
    destruct (nth_error l i) as [pickup |]; [| reflexivity].
    destruct (Game.collides self pickup); apply IH;
      [pose proof (list_remove_length pickup l) |]; lia.
Qed.

End UpdateLoop.

Lemma update_enough_fuel (g : Game.t) (extra : nat) :
  Game.update_loop g (List.length (Game.pickups g) + extra) 0
                   (Game.pickups g) =
    Game.pickups (Game.update g).
Proof. apply update_loop_enough_fuel. lia. Qed.

Lemma collides_position (g : Game.t) (r : nat) :
  Game.collides g r = true ->
  position (Game.objects g r) = position (Game.player g).
Proof.
  unfold Game.collides.
  destruct (position (Game.objects g r)) as [ox oy].
  destruct (position (Game.player g)) as [px py]. cbn [x y].
  destruct (Z.eqb_spec ox px) as [-> |]; [| discriminate].
  destruct (Z.eqb_spec oy py) as [-> |]; [reflexivity | discriminate].
Qed.

(** C10: [update] changes nothing but the list of pickups: the player, the
    stored objects and the running flag are as before; what remains in the
    list was in it before, no more often than before; and every reference
    that lost an occurrence is to a pickup on the player's cell. *)
Theorem update_only_removes_collected (g : Game.t) :
  Game.player (Game.update g) = Game.player g /\
  Game.objects (Game.update g) = Game.objects g /\
  Game.game_running (Game.update g) = Game.game_running g /\
  (forall r, In r (Game.pickups (Game.update g)) -> In r (Game.pickups g)) /\
  (forall r,
     (count_occ Nat.eq_dec (Game.pickups (Game.update g)) r
      <= count_occ Nat.eq_dec (Game.pickups g) r)%nat) /\
  (forall r,
     (count_occ Nat.eq_dec (Game.pickups (Game.update g)) r
      < count_occ Nat.eq_dec (Game.pickups g) r)%nat ->
     position (Game.objects g r) = position (Game.player g)).
Proof.
  split; [reflexivity |]. split; [reflexivity |]. split; [reflexivity |].
  unfold Game.update. cbn [Game.pickups Game.set_pickups].
  split; [| split].
  - intros r Hin. apply (count_occ_In Nat.eq_dec) in Hin.
    apply (count_occ_In Nat.eq_dec).
    pose proof (update_loop_count_le g (List.length (Game.pickups g)) 0
                  (Game.pickups g) r). lia.
  - intros r. apply update_loop_count_le.
  - intros r Hlt. apply collides_position.
    apply (update_loop_removed_collides g _ _ _ _ Hlt).
Qed.

Lemma update_only_removes_witness :
  position (Game.objects (game_with (player_at 2 2) [(2, 2); (3, 3)]) 0) =
    mkPosition 2 2 /\
  In 1%nat (Game.pickups (game_with (player_at 2 2) [(2, 2); (3, 3)])).
Proof.
  split.
  - apply (proj2 (proj2 (proj2 (proj2 (proj2
             (update_only_removes_collected
                (game_with (player_at 2 2) [(2, 2); (3, 3)]))))))).
    vm_compute. lia.
  - apply (proj1 (proj2 (proj2 (proj2
             (update_only_removes_collected
                (game_with (player_at 2 2) [(2, 2); (3, 3)])))))).
    vm_compute. left. reflexivity.
Defined.

(** C1: two pickups on the player's cell are not both removed by one call
    of [update]: taking the first one out shifts the second into the place
    the iteration has just left, so it is never looked at.  With one pickup
    on the player's cell and one elsewhere, exactly the first goes. *)
Theorem update_skips_pickup_after_removal :
  pickup_cells (Game.update (game_with (player_at 2 2) [(2, 2); (2, 2)])) =
    [(2, 2)] /\
  Game.collides (Game.update (game_with (player_at 2 2) [(2, 2); (2, 2)])) 1
    = true /\
  Game.pickups (Game.update (game_with (player_at 2 2) [(2, 2); (2, 2)])) =
    [1%nat] /\
  pickup_cells (Game.update (game_with (player_at 2 2) [(2, 2); (3, 3)])) =
    [(3, 3)].
Proof. repeat split. Qed.

(** * Spawning and level start *)

Lemma Pickup_init_in_grid (dev : Device) :
  in_grid (position (fst (Pickup.init dev))).
Proof.
  unfold Pickup.init. rewrite !bind_run. cbn [fst snd ret position x y].
  unfold in_grid, randrange, MIN_POSITION, MAX_POSITION. cbn [fst snd x y].
  match goal with
  | |- (_ <= ?a mod _ <= _) /\ (_ <= ?b mod _ <= _) =>
      pose proof (Z.mod_pos_bound a (4 + 1) ltac:(lia));
      pose proof (Z.mod_pos_bound b (4 + 1) ltac:(lia))
  end. lia.
Qed.

Lemma append_new_well_placed (g : Game.t) (o : GameObject) :
  in_grid (position o) -> well_placed g -> well_placed (Game.append_new g o).
Proof.
  unfold well_placed, Game.append_new.
  cbn [Game.pickups Game.objects Game.next_ref]. intros Ho Hg.
  apply Forall_app. split.
  - apply Forall_impl with (2 := Hg). intros r [Hlt Hin]. split; [lia |].
    destruct (Nat.eqb_spec r (Game.next_ref g)); [lia | exact Hin].
  - constructor; [| constructor]. split; [lia |].
    rewrite Nat.eqb_refl. exact Ho.
Qed.

Lemma spawn_loop_spec (count : nat) :
  forall (g : Game.t) (dev : Device),
    let g' := fst (Game.spawn_loop count g dev) in
    Game.player g' = Game.player g /\
    Game.game_running g' = Game.game_running g /\
    List.length (Game.pickups g') = (List.length (Game.pickups g) + count)%nat /\
    (well_placed g -> well_placed g').
Proof.
  induction count as [| k IH]; intros g dev; cbn [Game.spawn_loop].
  - cbn. repeat split; auto.
  - rewrite bind_run. cbv zeta.
    destruct (IH (Game.append_new g (fst (Pickup.init dev)))
                 (snd (Pickup.init dev))) as (Hp & Hr & Hl & Hw).
    rewrite Hp, Hr, Hl. cbn [Game.append_new Game.player Game.game_running
                               Game.pickups].
    rewrite length_app. cbn [List.length].
    repeat split; [lia |]. intros Hg. apply Hw.
    apply append_new_well_placed; [apply Pickup_init_in_grid | exact Hg].
Qed.

Lemma startLevel_game (g : Game.t) (amount : Z) (dev : Device) :
  fst (Game.startLevel g amount dev) =
    Game.set_player (fst (Game.spawnPickups g amount dev))
      (reset (Game.player (fst (Game.spawnPickups g amount dev)))).
Proof. unfold Game.startLevel. rewrite !bind_run. reflexivity. Qed.

Lemma startLevel_spec (g : Game.t) (amount : Z) (dev : Device) :
  let g' := fst (Game.startLevel g amount dev) in
  Game.player g' = reset (Game.player g) /\
  Game.game_running g' = Game.game_running g /\
  List.length (Game.pickups g') = Z.to_nat amount /\
  well_placed g'.
Proof.
  cbv zeta. rewrite startLevel_game. unfold Game.spawnPickups.
  destruct (spawn_loop_spec (Z.to_nat amount) (Game.set_pickups g []) dev)
    as (Hp & Hr & Hl & Hw).
  cbn [Game.set_player Game.player Game.game_running Game.pickups].
  rewrite Hp, Hr, Hl. repeat split.
  unfold well_placed. cbn [Game.pickups Game.objects Game.next_ref].
  apply Hw. constructor.
Qed.

(** * One tick *)

Lemma getInput_cases (g : Game.t) (dev : Device) :
  fst (Game.getInput g dev) = g \/
  exists d, fst (Game.getInput g dev) =
              Game.set_player g (move (Game.player g) d).
Proof.
  rewrite getInput_game.
  destruct (surd_gtb _ _); [right; eexists; reflexivity | left; reflexivity].
Qed.

Lemma update_pickups_incl (g : Game.t) (r : nat) :
  In r (Game.pickups (Game.update g)) -> In r (Game.pickups g).
Proof.
  unfold Game.update. cbn [Game.pickups Game.set_pickups]. intros Hin.
  apply (count_occ_In Nat.eq_dec) in Hin. apply (count_occ_In Nat.eq_dec).
  pose proof (update_loop_count_le g (List.length (Game.pickups g)) 0
                (Game.pickups g) r). lia.
Qed.

Lemma update_well_placed (g : Game.t) :
  well_placed g -> well_placed (Game.update g).
Proof.
  unfold well_placed. intros Hg. apply Forall_forall. intros r Hin.
  apply update_pickups_incl in Hin.
  exact (proj1 (Forall_forall _ _) Hg r Hin).
Qed.

Lemma tick_spec (s : Loop) (dev : Device) :
  let g2 := Game.update (fst (Game.getInput (game s) dev)) in
  game (fst (tick s dev)) = g2 /\
  pickup_amount (fst (tick s dev)) =
    (if Game.isGameOver g2 then pickup_amount s + 1 else pickup_amount s) /\
  level_start_time (fst (tick s dev)) = level_start_time s /\
  phase (fst (tick s dev)) = InnerLoop.
Proof.
  cbv zeta. unfold tick. rewrite bind_run. cbv zeta. rewrite !bind_run.
  cbn [fst snd ret game pickup_amount level_start_time phase].
  repeat split.
  destruct (Game.isGameOver (Game.update (fst (Game.getInput (game s) dev))));
    rewrite ?bind_run; reflexivity.
Qed.

Lemma step_outer (s : Loop) (dev : Device) :
  phase s = OuterLoop -> Game.game_running (game s) = true ->
  game (fst (step s dev)) =
    fst (Game.startLevel (game s) (pickup_amount s) dev) /\
  pickup_amount (fst (step s dev)) = pickup_amount s /\
  phase (fst (step s dev)) = InnerLoop.
Proof.
  intros Hph Hrun. unfold step. rewrite Hph, Hrun. rewrite !bind_run.
  repeat split.
Qed.

Lemma step_inner_tick (s : Loop) (dev : Device) :
  phase s = InnerLoop -> Game.isGameOver (game s) = false ->
  fst (step s dev) = fst (tick s dev).
Proof. intros Hph Hover. unfold step. rewrite Hph, Hover. reflexivity. Qed.

Lemma step_inner_exit (s : Loop) (dev : Device) :
  phase s = InnerLoop -> Game.isGameOver (game s) = true ->
  fst (step s dev) =
    mkLoop (game s) (pickup_amount s) (level_start_time s) OuterLoop.
Proof. intros Hph Hover. unfold step. rewrite Hph, Hover. reflexivity. Qed.

Lemma run_invariant (P : Loop -> Prop) :
  (forall s dev, P s -> P (fst (step s dev))) ->
  forall n s dev, P s -> P (fst (run n s dev)).
Proof.
  intros Hstep. induction n as [| k IH]; intros s dev Hs; cbn [run].
  - exact Hs.
  - rewrite bind_run. apply IH. apply Hstep. exact Hs.
Qed.

Lemma main_run (n : nat) (dev : Device) :
  exists dev', fst (main n dev) =
                 fst (run n (mkLoop Game.class_state 4 0 OuterLoop) dev').
Proof.
  unfold main, Game.init, playGame_enter. rewrite !bind_run.
  eexists. reflexivity.
Qed.

(** * Invariants of the running game *)

Lemma getInput_keeps_board (g : Game.t) (dev : Device) :
  let g' := fst (Game.getInput g dev) in
  Game.pickups g' = Game.pickups g /\
  Game.objects g' = Game.objects g /\
  Game.next_ref g' = Game.next_ref g /\
  Game.game_running g' = Game.game_running g /\
  brightness (Game.player g') = brightness (Game.player g) /\
  (in_grid (position (Game.player g)) -> in_grid (position (Game.player g'))).
Proof.
  cbv zeta. destruct (getInput_cases g dev) as [-> | [d ->]].
  - do 5 (split; [reflexivity |]). exact (fun H => H).
  - cbn [Game.set_player Game.pickups Game.objects Game.next_ref
           Game.game_running Game.player].
    do 4 (split; [reflexivity |]).
    split; [apply move_brightness | apply move_in_grid].
Qed.

Lemma step_keeps_grid (s : Loop) (dev : Device) :
  in_grid (position (Game.player (game s))) /\ well_placed (game s) ->
  in_grid (position (Game.player (game (fst (step s dev))))) /\
  well_placed (game (fst (step s dev))).
Proof.
  intros [Hp Hw]. destruct (phase s) eqn:Hph.
  - destruct (Game.game_running (game s)) eqn:Hrun.
    + destruct (step_outer s dev Hph Hrun) as (-> & _ & _).
      destruct (startLevel_spec (game s) (pickup_amount s) dev)
        as (-> & _ & _ & Hw').
      split; [| exact Hw'].
      unfold in_grid, reset, SCREEN_CENTER, MIN_POSITION, MAX_POSITION.
      cbn [position x y]. lia.
    + unfold step. rewrite Hph, Hrun. split; assumption.
  - destruct (Game.isGameOver (game s)) eqn:Hover.
    + rewrite (step_inner_exit s dev Hph Hover). split; assumption.
    + rewrite (step_inner_tick s dev Hph Hover).
      destruct (tick_spec s dev) as (-> & _).
      destruct (getInput_keeps_board (game s) dev)
        as (Hl & Ho & Hn & _ & _ & Hg).
      split; [exact (Hg Hp) |].
      apply update_well_placed. unfold well_placed. rewrite Hl, Ho, Hn.
      exact Hw.
  - unfold step. rewrite Hph. split; assumption.
Qed.

Lemma step_keeps_brightness (s : Loop) (dev : Device) :
  brightness (Game.player (game s)) = 9 ->
  brightness (Game.player (game (fst (step s dev)))) = 9.
Proof.
  intros Hb. destruct (phase s) eqn:Hph.
  - destruct (Game.game_running (game s)) eqn:Hrun.
    + destruct (step_outer s dev Hph Hrun) as (-> & _ & _).
      destruct (startLevel_spec (game s) (pickup_amount s) dev) as (-> & _).
      exact Hb.
    + unfold step. rewrite Hph, Hrun. exact Hb.
  - destruct (Game.isGameOver (game s)) eqn:Hover.
    + rewrite (step_inner_exit s dev Hph Hover). exact Hb.
    + rewrite (step_inner_tick s dev Hph Hover).
      destruct (tick_spec s dev) as (-> & _).
      destruct (getInput_keeps_board (game s) dev) as (_ & _ & _ & _ & Hk & _).
      cbn [Game.update Game.set_pickups Game.player]. rewrite Hk. exact Hb.
  - unfold step. rewrite Hph. exact Hb.
Qed.

(** C8: coordinates stay in [0..4]: a new pickup is placed on the grid,
    [reset] puts the player on the centre cell (2,2), [move] keeps a player
    that is on the grid on the grid whatever the direction, and at every
    point of a run of [main] the player and all listed pickups are on the
    grid. *)
Theorem positions_stay_in_grid :
  (forall dev, in_grid (position (fst (Pickup.init dev)))) /\
  (forall p, position (reset p) = mkPosition 2 2 /\
             in_grid (position (reset p))) /\
  (forall p d, in_grid (position p) -> in_grid (position (move p d))) /\
  (forall n dev,
     let g := game (fst (main n dev)) in
     in_grid (position (Game.player g)) /\
     forall r, In r (Game.pickups g) ->
               in_grid (position (Game.objects g r))).
Proof.
  split; [exact Pickup_init_in_grid |].
  split.
  { intros p. split; [reflexivity |].
    unfold in_grid, reset, SCREEN_CENTER, MIN_POSITION, MAX_POSITION.
    cbn [position x y]. lia. }
  split; [exact move_in_grid |].
  intros n dev g. subst g. destruct (main_run n dev) as [dev' ->].
  assert (in_grid (position (Game.player (game (fst (run n
            (mkLoop Game.class_state 4 0 OuterLoop) dev'))))) /\
          well_placed (game (fst (run n
            (mkLoop Game.class_state 4 0 OuterLoop) dev')))) as [Hp Hw].
  { apply (run_invariant
             (fun s => in_grid (position (Game.player (game s))) /\
                       well_placed (game s))).
    - intros s d. apply step_keeps_grid.
    - split; [| constructor].
      unfold in_grid, Game.class_state, Player.init, SCREEN_CENTER,
        MIN_POSITION, MAX_POSITION.
      cbn [game Game.player position x y]. lia. }
  split; [exact Hp |]. intros r Hin.
  exact (proj2 (proj1 (Forall_forall _ _) Hw r Hin)).
Qed.

Lemma positions_stay_in_grid_witness :
  in_grid (position (move (player_at 0 4) "S")) /\
  in_grid (position (Game.objects
                       (game (fst (main 1 (still_device 10 0 0 0 0 13)))) 3)).
Proof.
  split.
  - apply (proj1 (proj2 (proj2 positions_stay_in_grid))).
    unfold in_grid, MIN_POSITION, MAX_POSITION. cbn. lia.
  - apply (proj2 (proj2 (proj2 (proj2 positions_stay_in_grid)) 1%nat
                    (still_device 10 0 0 0 0 13))).
    vm_compute. do 3 right. left. reflexivity.
Defined.

(** C9: starting a level puts the player on the centre cell (2,2) and
    leaves its brightness as it was; the player is built with brightness 9
    and has brightness 9 at every point of a run of [main]. *)
Theorem startLevel_resets_position_keeps_brightness :
  (forall g amount dev,
     position (Game.player (fst (Game.startLevel g amount dev))) =
       mkPosition 2 2 /\
     brightness (Game.player (fst (Game.startLevel g amount dev))) =
       brightness (Game.player g)) /\
  brightness Player.init = 9 /\
  (forall n dev, brightness (Game.player (game (fst (main n dev)))) = 9).
Proof.
  split; [| split; [reflexivity |]].
  - intros g amount dev.
    destruct (startLevel_spec g amount dev) as (-> & _).
    split; reflexivity.
  - intros n dev. destruct (main_run n dev) as [dev' ->].
    apply (run_invariant
             (fun s => brightness (Game.player (game s)) = 9)).
    + intros s d. apply step_keeps_brightness.
    + reflexivity.
Qed.

(** * Level progression *)

Lemma isGameOver_length (g : Game.t) :
  Game.isGameOver g = true <-> List.length (Game.pickups g) = 0%nat.
Proof.
  unfold Game.isGameOver.
  destruct (Z.ltb_spec (Z.of_nat (List.length (Game.pickups g))) 1);
    split; intros; try discriminate; try reflexivity; lia.
Qed.

Lemma step_level_inv (m : Z) (s : Loop) (dev : Device) :
  level_inv m s ->
  level_inv (match phase s with OuterLoop => m + 1 | _ => m end)
            (fst (step s dev)) /\
  (phase s = OuterLoop ->
   phase (fst (step s dev)) = InnerLoop /\
   Z.of_nat (List.length (Game.pickups (game (fst (step s dev))))) = 4 + m) /\
  (phase s <> OuterLoop -> phase (fst (step s dev)) <> InnerLoop \/
                           phase s = InnerLoop).
Proof.
  intros (Hm & Hrun & Hph). destruct (phase s) eqn:Ephase.
  - destruct (step_outer s dev Ephase Hrun) as (Hg & Hpa & Hnext).
    destruct (startLevel_spec (game s) (pickup_amount s) dev)
      as (_ & Hrun' & Hlen & _).
    rewrite <- Hg in Hrun', Hlen.
    assert (Z.of_nat (List.length (Game.pickups (game (fst (step s dev)))))
            = 4 + m) as Hcount by (rewrite Hlen; lia).
    split; [| split; [intros _; split; assumption | congruence]].
    unfold level_inv. rewrite Hnext, Hrun', Hpa.
    split; [lia |]. split; [congruence |].
    destruct (Game.isGameOver (game (fst (step s dev)))) eqn:Hover; [| lia].
    apply isGameOver_length in Hover. lia.
  - split; [| split; [discriminate | right; reflexivity]].
    destruct (Game.isGameOver (game s)) eqn:Hover.
    + rewrite (step_inner_exit s dev Ephase Hover). unfold level_inv.
      cbn [game pickup_amount phase]. auto.
    + rewrite (step_inner_tick s dev Ephase Hover).
      destruct (tick_spec s dev) as (Hg & Hpa & _ & Hnext).
      unfold level_inv. rewrite Hnext, Hpa, Hg.
      destruct (getInput_keeps_board (game s) dev) as (_ & _ & _ & Hk & _).
      split; [exact Hm |]. split.
      * cbn [Game.update Game.set_pickups Game.game_running]. congruence.
      * destruct (Game.isGameOver
                    (Game.update (fst (Game.getInput (game s) dev)))); lia.
  - contradiction.
Qed.

Lemma spawned_run (n : nat) (s : Loop) (dev : Device) :
  fst (spawned (S n) s dev) =
    match phase s, phase (fst (step s dev)) with
    | OuterLoop, InnerLoop =>
        Z.of_nat (List.length (Game.pickups (game (fst (step s dev)))))
        :: fst (spawned n (fst (step s dev)) (snd (step s dev)))
    | _, _ => fst (spawned n (fst (step s dev)) (snd (step s dev)))
    end.
Proof. cbn [spawned]. rewrite !bind_run. reflexivity. Qed.

(** The level started as number [k] from now gets [4 + m + k] pickups. *)
Lemma spawned_levels (n : nat) :
  forall (s : Loop) (m : Z) (dev : Device) (k : nat) (c : Z),
    level_inv m s ->
    nth_error (fst (spawned n s dev)) k = Some c ->
    c = 4 + m + Z.of_nat k.
Proof.
  induction n as [| n IH]; intros s m dev k c Hinv Hnth.
  - destruct k; discriminate Hnth.
  - rewrite spawned_run in Hnth.
    destruct (step_level_inv m s dev Hinv) as (Hinv' & Houter & Hother).
    destruct (phase s) eqn:Ephase.
    + destruct (Houter eq_refl) as [Hnext Hcount].
      rewrite Hnext, Hcount in Hnth. destruct k as [| k].
      * cbn [nth_error] in Hnth.
        assert (4 + m = c) as Hc by congruence. lia.
      * cbn [nth_error] in Hnth.
        pose proof (IH _ _ _ _ _ Hinv' Hnth). lia.
    + assert (nth_error (fst (spawned n (fst (step s dev)) (snd (step s dev))))
                        k = Some c) as Hrest
          by (destruct (phase (fst (step s dev))); exact Hnth).
      exact (IH _ _ _ _ _ Hinv' Hrest).
    + destruct Hinv as (_ & _ & Hph). rewrite Ephase in Hph. contradiction.
Qed.

(** C4: [playGame] enters its loop with [pickup_amount] 4; [startLevel]
    leaves exactly [n] pickups on the grid whatever was there before; a tick
    adds exactly 1 to [pickup_amount] when it clears the level and nothing
    otherwise; and the levels [main] starts get 4, 5, 6, ... pickups in
    that order. *)
Theorem level_progression :
  (forall g dev, pickup_amount (fst (playGame_enter g dev)) = 4) /\
  (forall g n dev,
     0 <= n ->
     Z.of_nat (List.length (Game.pickups (fst (Game.startLevel g n dev)))) = n) /\
  (forall s dev,
     phase s = InnerLoop -> Game.isGameOver (game s) = false ->
     pickup_amount (fst (step s dev)) =
       if Game.isGameOver (game (fst (step s dev)))
       then pickup_amount s + 1 else pickup_amount s) /\
  (forall n dev k c,
     nth_error (fst (main_spawned n dev)) k = Some c ->
     c = 4 + Z.of_nat k).
Proof.
  split; [reflexivity |]. split; [| split].
  - intros g n dev Hn.
    destruct (startLevel_spec g n dev) as (_ & _ & -> & _). lia.
  - intros s dev Hph Hover. rewrite (step_inner_tick s dev Hph Hover).
    destruct (tick_spec s dev) as (-> & -> & _). reflexivity.
  - intros n dev k c Hnth. unfold main_spawned, Game.init, playGame_enter in Hnth.
    rewrite !bind_run in Hnth. cbn [fst snd ret] in Hnth.
    apply spawned_levels with (m := 0) in Hnth; [lia |].
    unfold level_inv. cbn. split; [lia |]. split; reflexivity.
Qed.

Lemma level_progression_witness :
  Z.of_nat (List.length (Game.pickups
              (fst (Game.startLevel (game_with (player_at 0 0) [(1, 1)]) 5
                      (still_device 10 0 0 0 0 7))))) = 5 /\
  nth_error (fst (main_spawned 6 (still_device 10 0 0 0 0 2))) 1 = Some 5 /\
  5 = 4 + Z.of_nat 1.
Proof.
  split; [| split].
  - apply (proj1 (proj2 level_progression)). lia.
  - reflexivity.
  - apply (proj2 (proj2 (proj2 level_progression)) 6%nat
             (still_device 10 0 0 0 0 2) 1%nat 5).
    reflexivity.
Defined.

(** * More on the collision update *)

Lemma list_remove_middle (r : nat) (pre rest : list nat) :
  ~ In r pre -> list_remove r (pre ++ r :: rest) = pre ++ rest.
Proof.
  induction pre as [| a pre IH]; intros Hnot; cbn [app list_remove].
  - rewrite Nat.eqb_refl. reflexivity.
  - destruct (Nat.eqb_spec a r) as [-> | _].
    + exfalso. apply Hnot. left. reflexivity.
    + rewrite IH; [reflexivity |]. intros Hin. apply Hnot. right. exact Hin.
Qed.

Lemma list_remove_length_In (r : nat) (l : list nat) :
  In r l -> S (List.length (list_remove r l)) = List.length l.
Proof.
  induction l as [| a t IH]; intros Hin; [destruct Hin |].
  cbn [list_remove]. destruct (Nat.eqb_spec a r) as [-> | Hne];
    [reflexivity |].
  destruct Hin as [-> | Hin]; [congruence |].
  cbn [List.length]. rewrite IH by exact Hin. reflexivity.
Qed.

Section UpdateLoopMore.

Variable self : Game.t.

Lemma update_loop_past_end (fuel i : nat) (l : list nat) :
  (List.length l <= i)%nat -> Game.update_loop self fuel i l = l.
Proof.
  intros Hlen. destruct fuel; cbn [Game.update_loop]; [reflexivity |].
  rewrite (proj2 (nth_error_None l i) Hlen). reflexivity.
Qed.

Lemma update_loop_length_le (fuel : nat) :
  forall (i : nat) (l : list nat),
    (List.length (Game.update_loop self fuel i l) <= List.length l)%nat.
Proof.
  induction fuel as [| f IH]; intros i l; cbn [Game.update_loop];
    [apply Nat.le_refl |].
  destruct (nth_error l i) as [pickup |]; [| apply Nat.le_refl].
  destruct (Game.collides self pickup); [| apply IH].
  eapply Nat.le_trans; [apply IH | apply list_remove_length].
Qed.

(** On distinct references the loop, standing at the end of [pre], turns
    the rest of the list into its [sweep]. *)
Lemma update_loop_sweep (fuel : nat) :
  forall (rest pre : list nat),
    NoDup (pre ++ rest) ->
    (List.length rest <= fuel)%nat ->
    Game.update_loop self fuel (List.length pre) (pre ++ rest) =
      pre ++ sweep (Game.collides self) rest.
Proof.
  induction fuel as [| f IH]; intros rest pre Hnd Hlen.
  - destruct rest; [reflexivity | cbn [List.length] in Hlen; lia].
  - destruct rest as [| r t].
    + apply update_loop_past_end. rewrite length_app. cbn. lia.
    + cbn [Game.update_loop sweep].
      rewrite nth_error_app2 by apply Nat.le_refl.
      rewrite Nat.sub_diag. cbn [nth_error].
      cbn [List.length] in Hlen.
      destruct (Game.collides self r).
      * rewrite list_remove_middle
          by (apply NoDup_remove_2 in Hnd; intros Hin; apply Hnd;
              apply in_or_app; left; exact Hin).
        apply NoDup_remove_1 in Hnd.
        destruct t as [| s t'].
        -- apply update_loop_past_end. rewrite length_app. cbn. lia.
        -- replace (pre ++ s :: t') with ((pre ++ [s]) ++ t')
             by (rewrite <- app_assoc; reflexivity).
           replace (S (List.length pre)) with (List.length (pre ++ [s]))
             by (rewrite length_app; cbn; lia).
           rewrite IH.
           ++ rewrite <- app_assoc. reflexivity.
           ++ rewrite <- app_assoc. exact Hnd.
           ++ cbn [List.length] in Hlen. lia.
      * replace (pre ++ r :: t) with ((pre ++ [r]) ++ t)
          by (rewrite <- app_assoc; reflexivity).
        replace (S (List.length pre)) with (List.length (pre ++ [r]))
          by (rewrite length_app; cbn; lia).
        rewrite IH.
        -- rewrite <- app_assoc. reflexivity.
        -- rewrite <- app_assoc. exact Hnd.
        -- lia.
Qed.

Lemma sweep_hits_apart (n : nat) :
  forall l : list nat,
    (List.length l <= n)%nat ->
    hits_apart (Game.collides self) l ->
    sweep (Game.collides self) l =
      filter (fun r => negb (Game.collides self r)) l.
Proof.
  induction n as [| n IH]; intros l Hlen Hapart.
  - destruct l; [reflexivity | cbn in Hlen; lia].
  - destruct l as [| a t]; [reflexivity |].
    cbn [List.length] in Hlen. cbn [sweep filter].
    destruct (Game.collides self a) eqn:Ha; cbn [negb].
    + destruct t as [| b t']; [reflexivity |].
      cbn [hits_apart] in Hapart. destruct Hapart as [Hab Hrest].
      cbn [filter]. rewrite (Hab Ha). cbn [negb].
      f_equal. cbn [List.length] in Hlen. apply IH; [lia |].
      destruct t' as [| c t'']; [exact I |].
      cbn [hits_apart] in Hrest. apply Hrest.
    + f_equal. apply IH; [lia |].
      destruct t as [| b t']; [exact I |].
      cbn [hits_apart] in Hapart. apply Hapart.
Qed.

(** A hit at or after the position of the loop makes the list shorter. *)
Lemma update_loop_shrinks (fuel : nat) :
  forall (i k : nat) (l : list nat) (r : nat),
    (List.length l <= i + fuel)%nat ->
    (i <= k)%nat -> nth_error l k = Some r ->
    Game.collides self r = true ->
    (List.length (Game.update_loop self fuel i l) < List.length l)%nat.
Proof.
  induction fuel as [| f IH]; intros i k l r Hlen Hik Hk Hhit.
  - assert (k < List.length l)%nat
      by (apply nth_error_Some; congruence). lia.
  - cbn [Game.update_loop].
    assert (k < List.length l)%nat as Hklt
        by (apply nth_error_Some; congruence).
    destruct (nth_error l i) as [pickup |] eqn:Hi.
    + destruct (Game.collides self pickup) eqn:Hp.
      * pose proof (update_loop_length_le f (S i) (list_remove pickup l)).
        pose proof (list_remove_length_In pickup l (nth_error_In l i Hi)).
        lia.
      * assert (i <> k) by (intros ->; congruence).
        apply (IH (S i) k l r); [lia | lia | exact Hk | exact Hhit].
    + apply nth_error_None in Hi. lia.
Qed.

End UpdateLoopMore.

Lemma no_hit_filter (hit : nat -> bool) (l : list nat) :
  (forall r, In r l -> hit r = false) ->
  filter (fun r => negb (hit r)) l = l.
Proof.
  induction l as [| a t IH]; intros Hno; [reflexivity |]. cbn [filter].
  rewrite (Hno a (or_introl eq_refl)). cbn [negb]. f_equal.
  apply IH. intros r Hin. apply Hno. right. exact Hin.
Qed.

(** With distinct references, [update] drops each pickup it finds on the
    player's cell and passes over the pickup that follows it. *)
Theorem update_is_sweep (g : Game.t) :
  NoDup (Game.pickups g) ->
  Game.pickups (Game.update g) = sweep (Game.collides g) (Game.pickups g).
Proof.
  intros Hnd. unfold Game.update. cbn [Game.pickups Game.set_pickups].
  apply (update_loop_sweep g (List.length (Game.pickups g))
           (Game.pickups g) [] Hnd (Nat.le_refl _)).
Qed.

Lemma update_is_sweep_witness :
  Game.pickups (Game.update (game_with (player_at 2 2)
                               [(2, 2); (2, 2); (2, 2); (1, 1); (2, 2)])) =
    [1%nat; 3%nat].
Proof.
  rewrite (update_is_sweep
             (game_with (player_at 2 2)
                        [(2, 2); (2, 2); (2, 2); (1, 1); (2, 2)])).
  - reflexivity.
  - apply (seq_NoDup 5 0).
Defined.

Lemma collides_update (g : Game.t) (r : nat) :
  Game.collides (Game.update g) r = Game.collides g r.
Proof. reflexivity. Qed.

(** When the pickups on the player's cell are distinct objects no two of
    which are neighbours in the list, one call of [update] removes exactly
    them, and nothing on the player's cell is left. *)
Theorem update_clears_separated_hits (g : Game.t) :
  NoDup (Game.pickups g) ->
  hits_apart (Game.collides g) (Game.pickups g) ->
  Game.pickups (Game.update g) =
    filter (fun r => negb (Game.collides g r)) (Game.pickups g) /\
  (forall r, In r (Game.pickups (Game.update g)) ->
             Game.collides (Game.update g) r = false).
Proof.
  intros Hnd Hapart.
  assert (Game.pickups (Game.update g) =
            filter (fun r => negb (Game.collides g r)) (Game.pickups g)) as Heq.
  { pose proof (update_loop_sweep g (List.length (Game.pickups g))
                  (Game.pickups g) [] Hnd (Nat.le_refl _)) as Hsweep.
    cbn [app List.length] in Hsweep.
    unfold Game.update. cbn [Game.pickups Game.set_pickups]. rewrite Hsweep.
    apply (sweep_hits_apart g (List.length (Game.pickups g)));
      [apply Nat.le_refl | exact Hapart]. }
  split; [exact Heq |]. intros r Hin. rewrite collides_update.
  rewrite Heq in Hin. apply filter_In in Hin. destruct Hin as [_ Hneg].
  destruct (Game.collides g r); [discriminate Hneg | reflexivity].
Qed.

Lemma update_clears_separated_witness :
  pickup_cells (Game.update (game_with (player_at 2 2)
                               [(2, 2); (3, 3); (2, 2); (0, 4)])) =
    [(3, 3); (0, 4)].
Proof.
  unfold pickup_cells.
  rewrite (proj1 (update_clears_separated_hits
                    (game_with (player_at 2 2)
                               [(2, 2); (3, 3); (2, 2); (0, 4)])
                    (seq_NoDup 4 0)
                    (conj (fun _ => eq_refl)
                       (conj (fun H => False_ind _ (Bool.diff_false_true H))
                          (conj (fun _ => eq_refl) I))))).
  reflexivity.
Defined.

Lemma update_loop_no_hit (g : Game.t) (fuel : nat) :
  forall (i : nat) (l : list nat),
    (forall r, In r l -> Game.collides g r = false) ->
    Game.update_loop g fuel i l = l.
Proof.
  induction fuel as [| f IH]; intros i l Hno; cbn [Game.update_loop];
    [reflexivity |].
  destruct (nth_error l i) as [pickup |] eqn:Hi; [| reflexivity].
  rewrite (Hno pickup (nth_error_In l i Hi)). apply IH. exact Hno.
Qed.

Lemma update_no_hit (g : Game.t) :
  (forall r, In r (Game.pickups g) -> Game.collides g r = false) ->
  Game.update g = g.
Proof.
  intros Hno. unfold Game.update. rewrite update_loop_no_hit by exact Hno.
  destruct g; reflexivity.
Qed.

Lemma update_hit_shrinks (g : Game.t) (r : nat) :
  In r (Game.pickups g) -> Game.collides g r = true ->
  (List.length (Game.pickups (Game.update g))
   < List.length (Game.pickups g))%nat.
Proof.
  intros Hin Hhit. apply In_nth_error in Hin. destruct Hin as [k Hk].
  unfold Game.update. cbn [Game.pickups Game.set_pickups].
  apply (update_loop_shrinks g _ 0%nat k _ r);
    [lia | lia | exact Hk | exact Hhit].
Qed.

(** [update] is the identity on a game with no pickup on the player's
    cell, and with one there it always shortens the list. *)
Theorem update_progress (g : Game.t) :
  ((forall r, In r (Game.pickups g) -> Game.collides g r = false) ->
   Game.update g = g) /\
  (forall r, In r (Game.pickups g) -> Game.collides g r = true ->
             (List.length (Game.pickups (Game.update g))
              < List.length (Game.pickups g))%nat).
Proof.
  split.
  - intros Hno. unfold Game.update.
    rewrite update_loop_no_hit by exact Hno. destruct g; reflexivity.
  - intros r Hin Hhit. apply In_nth_error in Hin. destruct Hin as [k Hk].
    unfold Game.update. cbn [Game.pickups Game.set_pickups].
    apply (update_loop_shrinks g _ 0%nat k _ r);
      [lia | lia | exact Hk | exact Hhit].
Qed.

Lemma update_progress_witness :
  Game.update (game_with (player_at 2 2) [(1, 1); (3, 3)]) =
    game_with (player_at 2 2) [(1, 1); (3, 3)] /\
  lt (List.length (Game.pickups
                     (Game.update (game_with (player_at 2 2) [(2, 2); (2, 2)]))))
     2.
Proof.
  split.
  - apply (proj1 (update_progress
                    (game_with (player_at 2 2) [(1, 1); (3, 3)]))).
    intros r [<- | [<- | []]]; reflexivity.
  - apply (proj2 (update_progress
                    (game_with (player_at 2 2) [(2, 2); (2, 2)])) 0%nat).
    + left. reflexivity.
    + reflexivity.
Defined.

Lemma iter_fixed {A} (f : A -> A) (a : A) (n : nat) :
  f a = a -> Nat.iter n f a = a.
Proof.
  intros Hfix. induction n as [| n IH]; [reflexivity |].
  rewrite Nat.iter_succ, IH. exact Hfix.
Qed.

Lemma update_iter_clears (n : nat) :
  forall g : Game.t,
    (List.length (Game.pickups g) <= n)%nat ->
    forall r, In r (Game.pickups (Nat.iter n Game.update g)) ->
              Game.collides g r = false.
Proof.
  induction n as [| n IH]; intros g Hlen r Hin.
  - change (Nat.iter 0 Game.update g) with g in Hin.
    destruct (Game.pickups g); [destruct Hin | cbn in Hlen; lia].
  - destruct (existsb (Game.collides g) (Game.pickups g)) eqn:Hany.
    + apply existsb_exists in Hany. destruct Hany as (h & Hh & Hhit).
      pose proof (update_hit_shrinks g h Hh Hhit) as Hshrink.
      rewrite Nat.iter_succ_r in Hin. rewrite <- (collides_update g r).
      apply (IH (Game.update g)); [lia | exact Hin].
    + assert (forall a, In a (Game.pickups g) -> Game.collides g a = false)
        as Hno.
      { intros a Ha. destruct (Game.collides g a) eqn:Hc; [| reflexivity].
        assert (existsb (Game.collides g) (Game.pickups g) = true)
          by (apply existsb_exists; exists a; split; assumption).
        congruence. }
      rewrite (iter_fixed Game.update g (S n) (update_no_hit g Hno)) in Hin.
      apply Hno. exact Hin.
Qed.

(** Calling [update] as many times as there are pickups leaves no pickup on
    the player's cell, and the player where it was. *)
Theorem update_repeated_clears (g : Game.t) :
  let g' := Nat.iter (List.length (Game.pickups g)) Game.update g in
  Game.player g' = Game.player g /\
  (forall r, In r (Game.pickups g') -> Game.collides g' r = false).
Proof.
  cbv zeta.
  assert (forall n, Game.player (Nat.iter n Game.update g) = Game.player g /\
                    Game.objects (Nat.iter n Game.update g) = Game.objects g)
    as Hframe.
  { induction n as [| n [IHp IHo]]; [split; reflexivity |].
    rewrite Nat.iter_succ. split; [exact IHp | exact IHo]. }
  split; [apply Hframe |]. intros r Hin.
  pose proof (update_iter_clears _ g (Nat.le_refl _) r Hin) as Hno.
  unfold Game.collides in *.
  destruct (Hframe (List.length (Game.pickups g))) as [-> ->]. exact Hno.
Qed.

Lemma update_repeated_witness :
  Game.collides
    (Nat.iter 4 Game.update
       (game_with (player_at 2 2) [(2, 2); (2, 2); (2, 2); (1, 1)]))
    3 = false.
Proof.
  apply (proj2 (update_repeated_clears
                  (game_with (player_at 2 2)
                             [(2, 2); (2, 2); (2, 2); (1, 1)]))).
  vm_compute. left. reflexivity.
Defined.

(** * More on spawning *)

Lemma Pickup_init_run (dev : Device) :
  fst (Pickup.init dev) =
    mkGameObject (mkPosition (fst (drawn_cell (entropy_feed dev) 0))
                             (snd (drawn_cell (entropy_feed dev) 0))) 3 /\
  entropy_feed (snd (Pickup.init dev)) =
    feed_tail (feed_tail (entropy_feed dev)).
Proof. split; reflexivity. Qed.

Lemma spawn_loop_refs (count : nat) :
  forall (g : Game.t) (dev : Device),
    let g' := fst (Game.spawn_loop count g dev) in
    Game.pickups g' = Game.pickups g ++ seq (Game.next_ref g) count /\
    Game.next_ref g' = (Game.next_ref g + count)%nat /\
    (forall r, (r < Game.next_ref g)%nat ->
               Game.objects g' r = Game.objects g r) /\
    (forall i, (i < count)%nat ->
               Game.objects g' (Game.next_ref g + i) =
                 mkGameObject
                   (mkPosition (fst (drawn_cell (entropy_feed dev) i))
                               (snd (drawn_cell (entropy_feed dev) i))) 3) /\
    (forall k, entropy_feed (snd (Game.spawn_loop count g dev)) k =
               entropy_feed dev (2 * count + k)%nat).
Proof.
  induction count as [| n IH]; intros g dev; cbv zeta.
  - cbn [Game.spawn_loop seq]. rewrite app_nil_r, Nat.add_0_r.
    repeat split; try reflexivity. intros i Hi. lia.
  - cbn [Game.spawn_loop]. rewrite bind_run.
    destruct (Pickup_init_run dev) as [Hobj Hfeed].
    destruct (IH (Game.append_new g (fst (Pickup.init dev)))
                 (snd (Pickup.init dev)))
      as (Hl & Hn & Hold & Hnew & Hrest).
    cbn [Game.append_new Game.pickups Game.next_ref Game.objects]
      in Hl, Hn, Hold, Hnew.
    split; [| split; [| split; [| split]]].
    + rewrite Hl, <- app_assoc. reflexivity.
    + rewrite Hn. lia.
    + intros r Hr. rewrite Hold by lia.
      destruct (Nat.eqb_spec r (Game.next_ref g)); [lia | reflexivity].
    + intros i Hi. destruct i as [| i].
      * rewrite Nat.add_0_r, Hold by lia. rewrite Nat.eqb_refl. exact Hobj.
      * replace (Game.next_ref g + S i)%nat
          with (S (Game.next_ref g) + i)%nat by lia.
        rewrite Hnew by lia. rewrite Hfeed. unfold drawn_cell, feed_tail.
        cbn [fst snd].
        replace (S (S (2 * i)))%nat with (2 * S i)%nat by lia.
        replace (S (S (2 * i + 1)))%nat with (2 * S i + 1)%nat by lia.
        reflexivity.
    + intros k. rewrite Hrest, Hfeed. unfold feed_tail. f_equal. lia.
Qed.

Lemma display_clear_keeps_entropy : preserves entropy_feed display_clear.
Proof. intros d. reflexivity. Qed.

Lemma startLevel_refs (g : Game.t) (amount : Z) (dev : Device) :
  let g' := fst (Game.startLevel g amount dev) in
  Game.pickups g' = seq (Game.next_ref g) (Z.to_nat amount) /\
  (forall r, (r < Game.next_ref g)%nat ->
             Game.objects g' r = Game.objects g r) /\
  (forall i, (i < Z.to_nat amount)%nat ->
             Game.objects g' (Game.next_ref g + i) =
               mkGameObject
                 (mkPosition (fst (drawn_cell (entropy_feed dev) i))
                             (snd (drawn_cell (entropy_feed dev) i))) 3) /\
  (forall k, entropy_feed (snd (Game.startLevel g amount dev)) k =
             entropy_feed dev (2 * Z.to_nat amount + k)%nat).
Proof.
  cbv zeta. rewrite startLevel_game.
  destruct (spawn_loop_refs (Z.to_nat amount) (Game.set_pickups g []) dev)
    as (Hl & _ & Hold & Hnew & Hrest).
  cbn [Game.set_pickups Game.pickups Game.next_ref Game.objects app]
    in Hl, Hold, Hnew.
  cbn [Game.set_player Game.pickups Game.objects].
  unfold Game.spawnPickups.
  split; [exact Hl |]. split; [exact Hold |]. split; [exact Hnew |].
  intros k. unfold Game.startLevel, Game.spawnPickups.
  rewrite bind_run. cbv zeta. rewrite bind_run. unfold ret. cbn [snd].
  rewrite display_clear_keeps_entropy. apply Hrest.
Qed.

Lemma startLevel_tidy (g : Game.t) (amount : Z) (dev : Device) :
  tidy (fst (Game.startLevel g amount dev)).
Proof.
  destruct (startLevel_refs g amount dev) as (Hl & _ & Hnew & _).
  unfold tidy. rewrite Hl. split; [apply seq_NoDup |].
  apply Forall_forall. intros r Hin. apply in_seq in Hin.
  replace r with (Game.next_ref g + (r - Game.next_ref g))%nat by lia.
  rewrite Hnew by lia. reflexivity.
Qed.

(** [startLevel] lists exactly the objects it has just made, in the order
    of making: they are new, distinct and of brightness 3, and no object made
    earlier is altered. *)
Theorem startLevel_pickups_fresh (g : Game.t) (amount : Z) (dev : Device) :
  let g' := fst (Game.startLevel g amount dev) in
  Game.pickups g' = seq (Game.next_ref g) (Z.to_nat amount) /\
  NoDup (Game.pickups g') /\
  (forall r, In r (Game.pickups g') ->
             brightness (Game.objects g' r) = 3 /\
             (Game.next_ref g <= r)%nat) /\
  (forall r, (r < Game.next_ref g)%nat ->
             Game.objects g' r = Game.objects g r).
Proof.
  cbv zeta. destruct (startLevel_refs g amount dev) as (Hl & Hold & _ & _).
  destruct (startLevel_tidy g amount dev) as [Hnd Hdim].
  split; [exact Hl |]. split; [exact Hnd |]. split; [| exact Hold].
  intros r Hin. split.
  - exact (proj1 (Forall_forall _ _) Hdim r Hin).
  - rewrite Hl in Hin. apply in_seq in Hin. lia.
Qed.

Lemma startLevel_pickups_fresh_witness :
  brightness
    (Game.objects
       (fst (Game.startLevel (game_with (player_at 0 0) [(1, 1); (4, 4)]) 3
               (still_device 10 0 0 0 0 7))) 4) = 3 /\
  Game.objects
    (fst (Game.startLevel (game_with (player_at 0 0) [(1, 1); (4, 4)]) 3
            (still_device 10 0 0 0 0 7))) 1 =
    mkGameObject (mkPosition 4 4) 3.
Proof.
  split.
  - apply (proj1 (proj2 (proj2 (startLevel_pickups_fresh
                   (game_with (player_at 0 0) [(1, 1); (4, 4)]) 3
                   (still_device 10 0 0 0 0 7))))).
    vm_compute. do 2 right. left. reflexivity.
  - rewrite (proj2 (proj2 (proj2 (startLevel_pickups_fresh
               (game_with (player_at 0 0) [(1, 1); (4, 4)]) 3
               (still_device 10 0 0 0 0 7)))) 1%nat).
    + reflexivity.
    + vm_compute. lia.
Defined.

Lemma map_seq_shift {A} (f : nat -> A) (g : nat -> A) (a n : nat) :
  (forall i, (i < n)%nat -> f (a + i)%nat = g i) ->
  map f (seq a n) = map g (seq 0 n).
Proof.
  revert a g. induction n as [| n IH]; intros a g Hfg; [reflexivity |].
  cbn [seq map]. f_equal.
  - rewrite <- (Hfg 0%nat) by lia. f_equal. lia.
  - rewrite <- (seq_shift n 0), map_map.
    apply (IH (S a) (fun i => g (S i))). intros i Hi.
    replace (S a + i)%nat with (a + S i)%nat by lia. apply Hfg. lia.
Qed.

(** The cells of a new level come from the random source in order: pickup
    number [i] takes draw [2 i] for its column and draw [2 i + 1] for its
    row, and the level uses up exactly two draws a pickup. *)
Theorem startLevel_cells_from_draws (g : Game.t) (amount : Z) (dev : Device) :
  pickup_cells (fst (Game.startLevel g amount dev)) =
    map (drawn_cell (entropy_feed dev)) (seq 0 (Z.to_nat amount)) /\
  (forall k, entropy_feed (snd (Game.startLevel g amount dev)) k =
             entropy_feed dev (2 * Z.to_nat amount + k)%nat).
Proof.
  destruct (startLevel_refs g amount dev) as (Hl & _ & Hnew & Hrest).
  split; [| exact Hrest].
  unfold pickup_cells. rewrite Hl. apply map_seq_shift.
  intros i Hi. rewrite (Hnew i Hi). cbn [position x y].
  destruct (drawn_cell (entropy_feed dev) i); reflexivity.
Qed.

(** * More on direction sensing *)

Ltac run_io :=
  repeat first
    [ rewrite bind_run
    | progress cbn [fst snd ret compass_heading feed_head feed_tail
                      heading_feed accel_x_feed accel_y_feed accel_z_feed
                      button_a_feed button_b_feed clock_feed entropy_feed
                      calibrated emitted]
    | progress unfold feed_tail, feed_head ].

Ltac sense :=
  repeat (run_io;
          match goal with
          | |- context [if ?c then _ else _] => destruct c
          end);
  run_io.

Ltac after_reads :=
  first [ exists 1%nat; split; [lia | reflexivity]
        | exists 2%nat; split; [lia | reflexivity]
        | exists 3%nat; split; [lia | reflexivity]
        | exists 4%nat; split; [lia | reflexivity]
        | exists 5%nat; split; [lia | reflexivity]
        | exists 6%nat; split; [lia | reflexivity]
        | exists 7%nat; split; [lia | reflexivity]
        | exists 8%nat; split; [lia | reflexivity] ].

Lemma findApproxFacingDirection_device (dev : Device) :
  exists k, (1 <= k <= 8)%nat /\
            snd (Game.findApproxFacingDirection dev) = skip_headings dev k.
Proof.
  unfold Game.findApproxFacingDirection, orM, andM, skip_headings.
  sense; after_reads.
Qed.

Lemma findApproxFacingDirection_values (dev : Device) :
  In (fst (Game.findApproxFacingDirection dev))
     ["N"; "W"; "S"; "E"; ""]%string.
Proof.
  unfold Game.findApproxFacingDirection, orM, andM.
  sense; cbn [In]; auto 6.
Qed.

(** [findApproxFacingDirection] returns "N", "W", "S", "E" or the empty
    string whatever the compass does, reads the compass at least once and
    at most eight times, and leaves the rest of the device as it was. *)
Theorem findApproxFacingDirection_reads (dev : Device) :
  In (fst (Game.findApproxFacingDirection dev))
     ["N"; "W"; "S"; "E"; ""]%string /\
  exists k, (1 <= k <= 8)%nat /\
            snd (Game.findApproxFacingDirection dev) = skip_headings dev k.
Proof.
  split; [apply findApproxFacingDirection_values
         | apply findApproxFacingDirection_device].
Qed.

(** The heading is read afresh for every comparison, so a compass that
    swings between two headings that both lie in the North range, one below
    45 and one above 315, is reported as South. *)
Theorem findApproxFacingDirection_wobble (dev : Device) (a b : Z) :
  a < 45 -> 315 < b ->
  (forall n, heading_feed dev n = if Nat.even n then a else b) ->
  fst (Game.findApproxFacingDirection dev) = "S"%string /\
  quantize a = "N"%string /\ quantize b = "N"%string.
Proof.
  intros Ha Hb Hfeed. split; [| split].
  - unfold Game.findApproxFacingDirection, orM, andM.
    run_io. rewrite !Hfeed. cbn [Nat.even].
    destruct (Z.gtb_spec a 315); [lia |].
    run_io. rewrite !Hfeed. cbn [Nat.even].
    destruct (Z.ltb_spec b 45); [lia |].
    run_io. rewrite !Hfeed. cbn [Nat.even].
    destruct (Z.gtb_spec a 225); [lia |].
    run_io. rewrite !Hfeed. cbn [Nat.even].
    destruct (Z.gtb_spec b 135); [| lia].
    run_io. rewrite !Hfeed. cbn [Nat.even].
    destruct (Z.ltb_spec a 225); [| lia].
    reflexivity.
  - apply quantize_table. lia.
  - apply quantize_table. lia.
Qed.

Lemma findApproxFacingDirection_wobble_witness :
  fst (Game.findApproxFacingDirection
         (mkDevice (fun n => if Nat.even n then 10 else 350)
                   (fun _ => 0) (fun _ => 0) (fun _ => 0)
                   (fun _ => false) (fun _ => false) (fun _ => 0)
                   (fun _ => 0) true [])) = "S"%string.
Proof.
  apply (findApproxFacingDirection_wobble
           (mkDevice (fun n => if Nat.even n then 10 else 350)
                     (fun _ => 0) (fun _ => 0) (fun _ => 0)
                     (fun _ => false) (fun _ => false) (fun _ => 0)
                     (fun _ => 0) true []) 10 350);
    [lia | lia | intros n; reflexivity].
Defined.

(** * Set-up *)

(** [setup] leaves the compass calibrated: it calibrates when the compass
    is not, does nothing when it is, and so does nothing when run again. *)
Theorem setup_calibrates_once (dev : Device) :
  calibrated (snd (Game.setup dev)) = true /\
  (calibrated dev = true -> snd (Game.setup dev) = dev) /\
  (calibrated dev = false ->
   emitted (snd (Game.setup dev)) = EvCalibrate :: emitted dev) /\
  snd (Game.setup (snd (Game.setup dev))) = snd (Game.setup dev).
Proof.
  unfold Game.setup. rewrite !bind_run.
  unfold compass_is_calibrated. cbn [fst snd].
  destruct (calibrated dev) eqn:Hc; cbn [negb ret compass_calibrate snd];
    rewrite ?bind_run; cbn [fst snd calibrated negb ret]; rewrite ?Hc;
    cbn [negb ret snd].
  - repeat split; try assumption; try discriminate.
  - repeat split; try discriminate.
Qed.

Lemma setup_calibrates_once_witness :
  snd (Game.setup (still_device 0 0 0 0 0 0)) = still_device 0 0 0 0 0 0 /\
  emitted (snd (Game.setup (mkDevice (fun _ => 0) (fun _ => 0) (fun _ => 0)
                              (fun _ => 0) (fun _ => false) (fun _ => false)
                              (fun _ => 0) (fun _ => 0) false []))) =
    [EvCalibrate].
Proof.
  split.
  - apply (proj1 (proj2 (setup_calibrates_once (still_device 0 0 0 0 0 0)))).
    reflexivity.
  - apply (proj1 (proj2 (proj2 (setup_calibrates_once
             (mkDevice (fun _ => 0) (fun _ => 0) (fun _ => 0)
                (fun _ => 0) (fun _ => false) (fun _ => false)
                (fun _ => 0) (fun _ => 0) false []))))).
    reflexivity.
Defined.

(** * Rendering *)

Lemma emit_run (e : Event) (d : Device) :
  snd (emit e d) = set_emitted d (e :: emitted d).
Proof. reflexivity. Qed.

Lemma set_emitted_twice (d : Device) (l1 l2 : list Event) :
  set_emitted (set_emitted d l1) l2 = set_emitted d l2.
Proof. reflexivity. Qed.

Lemma drawPickups_loop_run (objs : nat -> GameObject) (l : list nat) :
  forall d,
    snd (Game.drawPickups_loop objs l d) =
      set_emitted d (rev (map (fun r => pixel_of (objs r)) l) ++ emitted d).
Proof.
  induction l as [| r rest IH]; intros d; cbn [Game.drawPickups_loop].
  - destruct d; reflexivity.
  - rewrite bind_run. rewrite IH. unfold draw_pixel. rewrite emit_run.
    rewrite set_emitted_twice. cbn [map rev emitted set_emitted].
    rewrite <- app_assoc. reflexivity.
Qed.

Lemma draw_run (g : Game.t) (dev : Device) :
  snd (Game.draw g dev) =
    set_emitted dev
      (pixel_of (Game.player g)
       :: rev (map (fun r => pixel_of (Game.objects g r)) (Game.pickups g))
       ++ EvClear :: emitted dev).
Proof.
  unfold Game.draw, Game.drawPickups, Player.draw, display_clear, draw_pixel.
  rewrite !bind_run. rewrite emit_run. rewrite drawPickups_loop_run.
  rewrite emit_run. reflexivity.
Qed.

(** [draw] clears the display, lights the pickups in list order and the
    player last, so the player's brightness is what stands on a shared
    cell; it changes nothing of the device but the log.  The log is read
    here in the order of time. *)
Theorem draw_order (g : Game.t) (dev : Device) :
  rev (emitted (snd (Game.draw g dev))) =
    rev (emitted dev)
    ++ EvClear
    :: map (fun r => pixel_of (Game.objects g r)) (Game.pickups g)
    ++ [pixel_of (Game.player g)] /\
  set_emitted (snd (Game.draw g dev)) (emitted dev) = dev.
Proof.
  rewrite draw_run. cbn [set_emitted emitted]. split.
  - cbn [rev]. rewrite rev_app_distr, rev_involutive. cbn [rev].
    rewrite <- !app_assoc. reflexivity.
  - destruct dev; reflexivity.
Qed.

(** * Buttons *)

Ltac frame_all :=
  unfold Game.findApproxFacingDirection, Game.getAcceleration, orM, andM,
    Game.setup, Pickup.init, display_clear, draw_pixel, display_scroll, sleep;
  repeat (first [ apply preserves_bind; [| intros ?]
                | apply preserves_if
                | apply preserves_ret
                | solve [intros ?; reflexivity] ]).

Lemma sensing_keeps_buttons_and_log :
  (preserves button_a_feed Game.findApproxFacingDirection /\
   preserves button_b_feed Game.findApproxFacingDirection /\
   preserves emitted Game.findApproxFacingDirection /\
   preserves calibrated Game.findApproxFacingDirection) /\
  (preserves button_a_feed Game.getAcceleration /\
   preserves button_b_feed Game.getAcceleration /\
   preserves emitted Game.getAcceleration /\
   preserves calibrated Game.getAcceleration).
Proof. repeat split; frame_all. Qed.

Lemma getInput_device (g : Game.t) (dev : Device) :
  let dev2 :=
    snd (Game.getAcceleration (snd (Game.findApproxFacingDirection dev))) in
  snd (Game.getInput g dev) =
    snd ((if feed_head (button_b_feed dev2)
          then d <- Game.findApproxFacingDirection ;; display_scroll d 100
          else a <- button_a_was_pressed ;;
               if a then compass_calibrate else ret tt)
           (snd (button_b_was_pressed dev2))).
Proof.
  cbv zeta. unfold Game.getInput. rewrite bind_run. rewrite bind_run.
  cbv zeta. rewrite bind_run. rewrite bind_run. reflexivity.
Qed.

Lemma scroll_direction_run (d : Device) :
  let d' := snd ((dir <- Game.findApproxFacingDirection ;;
                  display_scroll dir 100) d) in
  emitted d' = EvScroll (fst (Game.findApproxFacingDirection d)) 100
               :: emitted d /\
  button_a_feed d' = button_a_feed d /\
  button_b_feed d' = button_b_feed d /\
  calibrated d' = calibrated d.
Proof.
  cbv zeta. rewrite bind_run. unfold display_scroll. rewrite emit_run.
  cbn [set_emitted emitted button_a_feed button_b_feed calibrated].
  destruct sensing_keeps_buttons_and_log as [(Ha1 & Hb1 & He1 & Hc1) _].
  rewrite He1, Ha1, Hb1, Hc1. repeat split.
Qed.

(** What [findApproxFacingDirection] returns, and the compass it leaves,
    depend on the compass only. *)
Lemma direction_from_compass (d1 d2 : Device) :
  heading_feed d1 = heading_feed d2 ->
  fst (Game.findApproxFacingDirection d1) =
    fst (Game.findApproxFacingDirection d2) /\
  heading_feed (snd (Game.findApproxFacingDirection d1)) =
    heading_feed (snd (Game.findApproxFacingDirection d2)).
Proof.
  destruct d1, d2. cbn [heading_feed]. intros <-.
  unfold Game.findApproxFacingDirection, orM, andM.
  repeat (run_io;
          match goal with
          | |- context [if ?a >? ?b then _ else _] => destruct (a >? b)
          | |- context [if ?a <? ?b then _ else _] => destruct (a <? b)
          end);
    run_io; split; reflexivity.
Qed.

(** The buttons in [getInput]: button B is polled every time; when it was
    pressed the direction is sensed again, on the compass as the first
    sensing left it, and that second result is scrolled with delay 100,
    and button A is not polled, so a press of A stays pending; otherwise A
    is polled, and a press of A calibrates the compass. *)
Theorem getInput_buttons (g : Game.t) (dev : Device) :
  let dev' := snd (Game.getInput g dev) in
  let first := Game.findApproxFacingDirection dev in
  let second := Game.findApproxFacingDirection (snd first) in
  button_b_feed dev' = feed_tail (button_b_feed dev) /\
  (feed_head (button_b_feed dev) = true ->
   emitted dev' = EvScroll (fst second) 100 :: emitted dev /\
   In (fst second) ["N"; "W"; "S"; "E"; ""]%string /\
   heading_feed dev' = heading_feed (snd second) /\
   button_a_feed dev' = button_a_feed dev /\
   calibrated dev' = calibrated dev) /\
  (feed_head (button_b_feed dev) = false ->
   heading_feed dev' = heading_feed (snd first) /\
   button_a_feed dev' = feed_tail (button_a_feed dev) /\
   (feed_head (button_a_feed dev) = true ->
    emitted dev' = EvCalibrate :: emitted dev /\ calibrated dev' = true) /\
   (feed_head (button_a_feed dev) = false ->
    emitted dev' = emitted dev /\ calibrated dev' = calibrated dev)).
Proof.
  cbv zeta. rewrite getInput_device. cbv zeta.
  destruct sensing_keeps_buttons_and_log
    as [(Ha1 & Hb1 & He1 & Hc1) (Ha2 & Hb2 & He2 & Hc2)].
  set (dev1 := snd (Game.findApproxFacingDirection dev)).
  set (dev2 := snd (Game.getAcceleration dev1)).
  assert (heading_feed dev2 = heading_feed dev1) as Hh by reflexivity.
  assert (button_a_feed dev2 = button_a_feed dev) as Ha
      by (unfold dev2, dev1; rewrite Ha2; apply Ha1).
  assert (button_b_feed dev2 = button_b_feed dev) as Hb
      by (unfold dev2, dev1; rewrite Hb2; apply Hb1).
  assert (emitted dev2 = emitted dev) as He
      by (unfold dev2, dev1; rewrite He2; apply He1).
  assert (calibrated dev2 = calibrated dev) as Hc
      by (unfold dev2, dev1; rewrite Hc2; apply Hc1).
  rewrite Hb. clearbody dev2.
  destruct (feed_head (button_b_feed dev)) eqn:Hpress.
  - set (dB := snd (button_b_was_pressed dev2)).
    assert (heading_feed dB = heading_feed dev1) as HhB by exact Hh.
    assert (button_a_feed dB = button_a_feed dev) as HaB by exact Ha.
    assert (button_b_feed dB = feed_tail (button_b_feed dev)) as HbB
        by (unfold dB; cbn [button_b_was_pressed snd button_b_feed];
            rewrite Hb; reflexivity).
    assert (emitted dB = emitted dev) as HeB by exact He.
    assert (calibrated dB = calibrated dev) as HcB by exact Hc.
    clearbody dB.
    destruct (scroll_direction_run dB) as (Hlog & Hfa & Hfb & Hcal).
    destruct (direction_from_compass dB dev1 HhB) as [Hsame Hleft].
    rewrite Hlog, Hfa, Hfb, Hcal, Hsame, HeB, HaB, HbB, HcB.
    split; [reflexivity |]. split; [| intros H; discriminate H].
    intros _. split; [reflexivity |].
    split; [apply findApproxFacingDirection_values |].
    split; [| split; reflexivity].
    rewrite <- Hleft. rewrite bind_run. unfold display_scroll.
    rewrite emit_run. reflexivity.
  - rewrite bind_run.
    cbn [button_a_was_pressed button_b_was_pressed fst snd button_a_feed
           button_b_feed].
    rewrite Ha, Hb.
    split; [| split; [intros H; discriminate H |]].
    + destruct (feed_head (button_a_feed dev)); reflexivity.
    + intros _.
      destruct (feed_head (button_a_feed dev));
        cbn [compass_calibrate ret snd button_a_feed emitted calibrated
               heading_feed];
        rewrite ?He, ?Hc, ?Hh;
        (split; [reflexivity |]);
        (split; [reflexivity |]);
        (split; intros H; try discriminate H; split; reflexivity).
Qed.

Lemma getInput_buttons_witness :
  emitted (snd (Game.getInput (game_with (player_at 2 2) [])
                  (mkDevice (fun n => if Nat.eqb n 0 then 350 else 100)
                     (fun _ => 2000) (fun _ => 0) (fun _ => 0)
                     (fun _ => false) (fun _ => true)
                     (fun _ => 0) (fun _ => 0) true []))) =
    [EvScroll "E" 100] /\
  emitted (snd (Game.getInput (game_with (player_at 2 2) [])
                  (mkDevice (fun _ => 100) (fun _ => 0) (fun _ => 0)
                     (fun _ => 0) (fun _ => true) (fun _ => false)
                     (fun _ => 0) (fun _ => 0) true []))) = [EvCalibrate] /\
  button_a_feed
    (snd (Game.getInput (game_with (player_at 2 2) [])
            (mkDevice (fun _ => 100) (fun _ => 0) (fun _ => 0)
               (fun _ => 0) (fun n => Nat.eqb n 0) (fun _ => true)
               (fun _ => 0) (fun _ => 0) true []))) 0%nat = true.
Proof.
  split; [| split].
  - rewrite (proj1 (proj1 (proj2 (getInput_buttons
               (game_with (player_at 2 2) [])
               (mkDevice (fun n => if Nat.eqb n 0 then 350 else 100)
                  (fun _ => 2000) (fun _ => 0) (fun _ => 0)
                  (fun _ => false) (fun _ => true)
                  (fun _ => 0) (fun _ => 0) true []))) eq_refl)).
    reflexivity.
  - apply (proj2 (proj2 (getInput_buttons (game_with (player_at 2 2) [])
             (mkDevice (fun _ => 100) (fun _ => 0) (fun _ => 0)
                (fun _ => 0) (fun _ => true) (fun _ => false)
                (fun _ => 0) (fun _ => 0) true [])))); reflexivity.
  - rewrite (proj1 (proj2 (proj2 (proj2 (proj1 (proj2 (getInput_buttons
               (game_with (player_at 2 2) [])
               (mkDevice (fun _ => 100) (fun _ => 0) (fun _ => 0)
                  (fun _ => 0) (fun n => Nat.eqb n 0) (fun _ => true)
                  (fun _ => 0) (fun _ => 0) true []))) eq_refl))))).
    reflexivity.
Defined.

(** * More on movement *)

Lemma constrain_id (v : Z) : 0 <= v <= 4 -> constrainToBoundaries v = v.
Proof. intros Hv. destruct (constrain_cases v) as [H | [H | H]]; lia. Qed.

Lemma constrain_there_and_back (v : Z) :
  0 <= v <= 4 ->
  (constrainToBoundaries (constrainToBoundaries (v - 1) + 1) = v <-> 0 < v) /\
  (constrainToBoundaries (constrainToBoundaries (v + 1) - 1) = v <-> v < 4).
Proof.
  intros Hv.
  destruct (constrain_cases (v - 1)) as [[? E1] | [[? E1] | [? E1]]];
    destruct (constrain_cases (v + 1)) as [[? E2] | [[? E2] | [? E2]]];
    try lia; rewrite E1, E2;
    rewrite !constrain_id by lia; lia.
Qed.

Lemma same_row (px py py' b : Z) :
  mkGameObject (mkPosition px py') b = mkGameObject (mkPosition px py) b
  <-> py' = py.
Proof. split; [intros H; injection H; auto | intros ->; reflexivity]. Qed.

Lemma same_column (px px' py b : Z) :
  mkGameObject (mkPosition px' py) b = mkGameObject (mkPosition px py) b
  <-> px' = px.
Proof. split; [intros H; injection H; auto | intros ->; reflexivity]. Qed.

(** A step and the opposite step bring a player on the grid back exactly
    when the first step was not stopped by the border. *)
Theorem move_and_back (p : GameObject) :
  in_grid (position p) ->
  (move (move p "N") "S" = p <-> 0 < y (position p)) /\
  (move (move p "S") "N" = p <-> y (position p) < 4) /\
  (move (move p "W") "E" = p <-> 0 < x (position p)) /\
  (move (move p "E") "W" = p <-> x (position p) < 4).
Proof.
  destruct p as [[px py] b].
  unfold in_grid, MIN_POSITION, MAX_POSITION. cbn [position x y].
  intros [Hx Hy].
  rewrite !move_N, !move_S, !move_W, !move_E. cbn [position x y brightness].
  rewrite !same_row, !same_column.
  destruct (constrain_there_and_back px Hx) as [Hw He].
  destruct (constrain_there_and_back py Hy) as [Hn Hs].
  repeat split; tauto.
Qed.

Lemma move_and_back_witness :
  move (move (player_at 2 2) "N") "S" = player_at 2 2 /\
  move (move (player_at 0 3) "W") "E" <> player_at 0 3.
Proof.
  assert (in_grid (position (player_at 2 2))) as H22
      by (unfold in_grid, MIN_POSITION, MAX_POSITION; cbn; lia).
  assert (in_grid (position (player_at 0 3))) as H03
      by (unfold in_grid, MIN_POSITION, MAX_POSITION; cbn; lia).
  split.
  - apply (proj1 (move_and_back (player_at 2 2) H22)). cbn. lia.
  - intros Hback.
    apply (proj1 (proj2 (proj2 (move_and_back (player_at 0 3) H03)))) in Hback.
    cbn in Hback. lia.
Defined.

(** * The player of the commented file *)

(** The player of [MicroPickupCommented.py] moves, resets and draws as the
    one of [MicroPickup.py]; its extra field is 0 from the start, is set to
    0 by [reset] and is left alone by [move]. *)
Theorem commented_player_agrees (p : PlayerCommented.t) (d : string) :
  PlayerCommented.plain PlayerCommented.init = Player.init /\
  PlayerCommented.plain (PlayerCommented.reset p) =
    Player.reset (PlayerCommented.plain p) /\
  PlayerCommented.plain (PlayerCommented.move p d) =
    Player.move (PlayerCommented.plain p) d /\
  PlayerCommented.draw p = Player.draw (PlayerCommented.plain p) /\
  (forall v, PlayerCommented.constrainToBoundaries v =
             Player.constrainToBoundaries v) /\
  PlayerCommented.completion_time PlayerCommented.init = 0 /\
  PlayerCommented.completion_time (PlayerCommented.reset p) = 0 /\
  PlayerCommented.completion_time (PlayerCommented.move p d) =
    PlayerCommented.completion_time p.
Proof.
  split; [reflexivity |]. split; [reflexivity |]. split.
  { unfold PlayerCommented.move, Player.move, PlayerCommented.plain.
    cbn [position brightness].
    destruct (String.eqb d "N"); [reflexivity |].
    destruct (String.eqb d "S"); [reflexivity |].
    destruct (String.eqb d "W"); [reflexivity |].
    destruct (String.eqb d "E"); reflexivity. }
  split; [reflexivity |]. split; [reflexivity |].
  split; [reflexivity |]. split; [reflexivity |].
  unfold PlayerCommented.move.
  destruct (String.eqb d "N"); [reflexivity |].
  destruct (String.eqb d "S"); [reflexivity |].
  destruct (String.eqb d "W"); [reflexivity |].
  destruct (String.eqb d "E"); reflexivity.
Qed.

(** * What [getInput] does to the game *)

(** [getInput] leaves the pickups, the stored objects and the running flag
    alone and keeps the player's brightness; a player on the grid ends on
    the same cell or on one next to it in its row or column. *)
Theorem getInput_moves_at_most_one_cell (g : Game.t) (dev : Device) :
  let g' := fst (Game.getInput g dev) in
  Game.pickups g' = Game.pickups g /\
  Game.objects g' = Game.objects g /\
  Game.game_running g' = Game.game_running g /\
  brightness (Game.player g') = brightness (Game.player g) /\
  (in_grid (position (Game.player g)) ->
   in_grid (position (Game.player g')) /\
   Z.abs (x (position (Game.player g')) - x (position (Game.player g))) +
   Z.abs (y (position (Game.player g')) - y (position (Game.player g))) <= 1).
Proof.
  cbv zeta.
  destruct (getInput_keeps_board g dev) as (Hl & Ho & _ & Hr & Hb & Hg).
  split; [exact Hl |]. split; [exact Ho |]. split; [exact Hr |].
  split; [exact Hb |]. intros Hin. split; [exact (Hg Hin) |].
  destruct (getInput_cases g dev) as [-> | [d ->]]; [lia |].
  cbn [Game.set_player Game.player].
  unfold in_grid, MIN_POSITION, MAX_POSITION in Hin.
  destruct (move_cases (Game.player g) d) as [H | [H | [H | [H | H]]]];
    rewrite H; rewrite ?move_N, ?move_S, ?move_W, ?move_E;
    cbn [position x y];
    try (destruct (constrain_cases (y (position (Game.player g)) - 1))
           as [[? E] | [[? E] | [? E]]]; rewrite E; lia);
    try (destruct (constrain_cases (y (position (Game.player g)) + 1))
           as [[? E] | [[? E] | [? E]]]; rewrite E; lia);
    try (destruct (constrain_cases (x (position (Game.player g)) - 1))
           as [[? E] | [[? E] | [? E]]]; rewrite E; lia);
    try (destruct (constrain_cases (x (position (Game.player g)) + 1))
           as [[? E] | [[? E] | [? E]]]; rewrite E; lia);
    lia.
Qed.

Lemma getInput_moves_witness :
  Z.abs (x (position (Game.player
           (fst (Game.getInput (game_with (player_at 2 2) [(0, 0)])
                   (still_device 100 2000 0 0 0 0))))) - 2) +
  Z.abs (y (position (Game.player
           (fst (Game.getInput (game_with (player_at 2 2) [(0, 0)])
                   (still_device 100 2000 0 0 0 0))))) - 2) <= 1.
Proof.
  apply (proj2 (proj2 (proj2 (proj2 (getInput_moves_at_most_one_cell
           (game_with (player_at 2 2) [(0, 0)])
           (still_device 100 2000 0 0 0 0)))))).
  unfold in_grid, MIN_POSITION, MAX_POSITION. cbn. lia.
Defined.

(** * Invariants that involve the device *)

Lemma run_invariant_dev (P : Loop -> Device -> Prop) :
  (forall s d, P s d -> P (fst (step s d)) (snd (step s d))) ->
  forall n s d, P s d -> P (fst (run n s d)) (snd (run n s d)).
Proof.
  intros Hstep. induction n as [| k IH]; intros s d Hs; cbn [run].
  - exact Hs.
  - rewrite bind_run. apply IH. apply Hstep. exact Hs.
Qed.

Lemma main_run_dev (n : nat) (dev : Device) :
  main n dev =
    run n (mkLoop Game.class_state 4 0 OuterLoop)
        (snd (playGame_enter Game.class_state (snd (Game.init dev)))).
Proof.
  unfold main. rewrite !bind_run. unfold Game.init at 1 2.
  rewrite !bind_run. reflexivity.
Qed.

Lemma entry_preserves {X} (proj : Device -> X) :
  (forall e, preserves proj (emit e)) ->
  preserves proj compass_calibrate ->
  forall dev,
    proj (snd (playGame_enter Game.class_state (snd (Game.init dev)))) =
      proj dev.
Proof.
  intros Hemit Hcal dev.
  assert (preserves proj (playGame_enter Game.class_state)) as H1.
  { unfold playGame_enter, display_scroll.
    apply preserves_bind; [apply Hemit | intros _; apply preserves_ret]. }
  assert (preserves proj Game.init) as H2.
  { unfold Game.init, Game.setup.
    apply preserves_bind; [| intros _; apply preserves_ret].
    apply preserves_bind; [intros d; reflexivity | intros c].
    apply preserves_if; [exact Hcal | apply preserves_ret]. }
  rewrite H1. apply H2.
Qed.

Lemma spawn_loop_preserves {X} (proj : Device -> X) (count : nat) :
  preserves proj Pickup.init ->
  forall g, preserves proj (Game.spawn_loop count g).
Proof.
  intros Hinit. induction count as [| k IH]; intros g; cbn [Game.spawn_loop].
  - apply preserves_ret.
  - apply preserves_bind; [exact Hinit | intros o; apply IH].
Qed.

Lemma startLevel_preserves {X} (proj : Device -> X) (g : Game.t) (amount : Z) :
  preserves proj Pickup.init -> preserves proj display_clear ->
  preserves proj (Game.startLevel g amount).
Proof.
  intros Hinit Hclear. unfold Game.startLevel, Game.spawnPickups.
  apply preserves_bind; [apply spawn_loop_preserves; exact Hinit | intros g'].
  apply preserves_bind; [exact Hclear | intros _; apply preserves_ret].
Qed.

Lemma startLevel_log (g : Game.t) (amount : Z) (dev : Device) :
  emitted (snd (Game.startLevel g amount dev)) = EvClear :: emitted dev.
Proof.
  unfold Game.startLevel, Game.spawnPickups. rewrite bind_run. cbv zeta.
  rewrite bind_run. unfold ret. cbn [snd]. unfold display_clear.
  rewrite emit_run. cbn [set_emitted emitted]. f_equal.
  apply (spawn_loop_preserves emitted); frame_all.
Qed.

Lemma step_outer_dev (s : Loop) (dev : Device) :
  phase s = OuterLoop -> Game.game_running (game s) = true ->
  snd (step s dev) =
    snd (running_time (snd (Game.startLevel (game s) (pickup_amount s) dev)))
  /\
  level_start_time (fst (step s dev)) =
    feed_head (clock_feed
                 (snd (Game.startLevel (game s) (pickup_amount s) dev))).
Proof.
  intros Hph Hrun. unfold step. rewrite Hph, Hrun. rewrite !bind_run.
  split; reflexivity.
Qed.

Lemma step_idle_dev (s : Loop) (dev : Device) :
  phase s <> OuterLoop \/ Game.game_running (game s) = false ->
  phase s <> InnerLoop \/ Game.isGameOver (game s) = true ->
  snd (step s dev) = dev /\
  level_start_time (fst (step s dev)) = level_start_time s.
Proof.
  intros Hout Hin. unfold step. destruct (phase s).
  - destruct Hout as [Hout | ->]; [congruence |]. split; reflexivity.
  - destruct Hin as [Hin | ->]; [congruence |]. split; reflexivity.
  - split; reflexivity.
Qed.

(** The log of one tick, on top of what [getInput] logged. *)
Lemma tick_log (s : Loop) (dev : Device) :
  let g2 := Game.update (fst (Game.getInput (game s) dev)) in
  let d1 := snd (Game.getInput (game s) dev) in
  emitted (snd (tick s dev)) =
    EvSleep 100
    :: (if Game.isGameOver g2
        then [EvScroll (time_message (level_start_time s)
                                     (feed_head (clock_feed dev)))
                       DEFAULT_SCROLL_DELAY]
        else [])
    ++ pixel_of (Game.player g2)
    :: rev (map (fun r => pixel_of (Game.objects g2 r)) (Game.pickups g2))
    ++ EvClear :: emitted d1.
Proof.
  cbv zeta. unfold tick. rewrite bind_run. cbv zeta. rewrite !bind_run.
  unfold sleep. rewrite emit_run. cbn [set_emitted emitted]. f_equal.
  destruct (Game.isGameOver (Game.update (fst (Game.getInput (game s) dev)))).
  - rewrite !bind_run. unfold display_scroll, ret. cbn [snd fst].
    rewrite emit_run. cbn [set_emitted emitted running_time fst snd].
    rewrite draw_keeps_clock, getInput_keeps_clock.
    rewrite draw_run. reflexivity.
  - unfold ret. cbn [snd app]. rewrite draw_run. reflexivity.
Qed.


(** Every tick logs, after what [getInput] logged and in this order: the
    clearing of the display, one pixel for each remaining pickup in list
    order, the player's pixel, the TIME message when and only when no pickup
    remains, and last the sleep of 100 ms. *)
Theorem tick_trace (s : Loop) (dev : Device) :
  let g2 := Game.update (fst (Game.getInput (game s) dev)) in
  let d1 := snd (Game.getInput (game s) dev) in
  rev (emitted (snd (tick s dev))) =
    rev (emitted d1)
    ++ EvClear
    :: map (fun r => pixel_of (Game.objects g2 r)) (Game.pickups g2)
    ++ pixel_of (Game.player g2)
    :: (if Game.isGameOver g2
        then [EvScroll (time_message (level_start_time s)
                                     (feed_head (clock_feed dev)))
                       DEFAULT_SCROLL_DELAY]
        else [])
    ++ [EvSleep 100].
Proof.
  cbv zeta. rewrite tick_log. cbv zeta. cbn [rev].
  rewrite rev_app_distr. cbn [rev]. rewrite rev_app_distr, rev_involutive.
  cbn [rev]. rewrite <- !app_assoc. cbn [app]. do 3 f_equal.
  destruct (Game.isGameOver (Game.update (fst (Game.getInput (game s) dev))));
    reflexivity.
Qed.

(** * The loops never end *)

Lemma run_level_inv (n : nat) (dev : Device) :
  exists m, level_inv m (fst (main n dev)).
Proof.
  destruct (main_run n dev) as [dev' ->].
  apply (run_invariant (fun s => exists m, level_inv m s)).
  - intros s d [m Hm]. eexists. apply (step_level_inv m s d Hm).
  - exists 0. unfold level_inv. cbn. split; [lia |]. split; reflexivity.
Qed.

(** [playGame] never leaves its loops: at every point of a run of [main]
    the running flag is set, control is in one of the two loops, and
    [pickup_amount] is at least 4. *)
Theorem playGame_never_returns (n : nat) (dev : Device) :
  phase (fst (main n dev)) <> Returned /\
  Game.game_running (game (fst (main n dev))) = true /\
  4 <= pickup_amount (fst (main n dev)).
Proof.
  destruct (run_level_inv n dev) as (m & Hm & Hrun & Hph).
  split; [| split; [exact Hrun |]].
  - intros Hret. rewrite Hret in Hph. exact Hph.
  - destruct (phase (fst (main n dev))); [lia | | contradiction].
    destruct (Game.isGameOver (game (fst (main n dev)))); lia.
Qed.

(** * The pickups stay distinct and dim *)

Lemma update_tidy (g : Game.t) : tidy g -> tidy (Game.update g).
Proof.
  intros [Hnd Hdim]. split.
  - apply (NoDup_count_occ Nat.eq_dec). intros r.
    pose proof (proj1 (NoDup_count_occ Nat.eq_dec (Game.pickups g)) Hnd r).
    pose proof (update_loop_count_le g (List.length (Game.pickups g)) 0
                  (Game.pickups g) r).
    unfold Game.update. cbn [Game.pickups Game.set_pickups]. lia.
  - apply Forall_forall. intros r Hin. apply update_pickups_incl in Hin.
    exact (proj1 (Forall_forall _ _) Hdim r Hin).
Qed.

Lemma step_keeps_tidy (s : Loop) (dev : Device) :
  tidy (game s) -> tidy (game (fst (step s dev))).
Proof.
  intros Ht. destruct (phase s) eqn:Hph.
  - destruct (Game.game_running (game s)) eqn:Hrun.
    + destruct (step_outer s dev Hph Hrun) as (-> & _ & _).
      apply startLevel_tidy.
    + unfold step. rewrite Hph, Hrun. exact Ht.
  - destruct (Game.isGameOver (game s)) eqn:Hover.
    + rewrite (step_inner_exit s dev Hph Hover). exact Ht.
    + rewrite (step_inner_tick s dev Hph Hover).
      destruct (tick_spec s dev) as (-> & _).
      destruct (getInput_keeps_board (game s) dev) as (Hl & Ho & _).
      apply update_tidy. unfold tidy. rewrite Hl, Ho. exact Ht.
  - unfold step. rewrite Hph. exact Ht.
Qed.

(** At every point of a run of [main] the listed pickups are distinct
    objects of brightness 3. *)
Theorem pickups_stay_distinct (n : nat) (dev : Device) :
  NoDup (Game.pickups (game (fst (main n dev)))) /\
  Forall (fun r => brightness (Game.objects (game (fst (main n dev))) r) = 3)
         (Game.pickups (game (fst (main n dev)))).
Proof.
  destruct (main_run n dev) as [dev' ->].
  apply (run_invariant (fun s => tidy (game s))).
  - intros s d. apply step_keeps_tidy.
  - split; constructor.
Qed.

(** * The display is never addressed off the grid *)

Lemma getInput_log (g : Game.t) (dev : Device) :
  emitted (snd (Game.getInput g dev)) = emitted dev \/
  (exists d, emitted (snd (Game.getInput g dev)) =
               EvScroll d 100 :: emitted dev) \/
  emitted (snd (Game.getInput g dev)) = EvCalibrate :: emitted dev.
Proof.
  rewrite getInput_device. cbv zeta.
  destruct sensing_keeps_buttons_and_log
    as [(_ & _ & He1 & _) (_ & _ & He2 & _)].
  set (dev2 := snd (Game.getAcceleration
                      (snd (Game.findApproxFacingDirection dev)))).
  assert (emitted dev2 = emitted dev) as He
      by (unfold dev2; rewrite He2; apply He1).
  clearbody dev2. destruct (feed_head (button_b_feed dev2)).
  - right. left. eexists.
    rewrite (proj1 (scroll_direction_run (snd (button_b_was_pressed dev2)))).
    cbn [button_b_was_pressed snd emitted]. rewrite He. reflexivity.
  - rewrite bind_run. cbn [button_a_was_pressed button_b_was_pressed fst snd
                             button_a_feed].
    destruct (feed_head (button_a_feed dev2));
      cbn [compass_calibrate ret snd emitted]; rewrite He; auto.
Qed.

Lemma pixel_of_ok (o : GameObject) :
  in_grid (position o) -> 0 <= brightness o <= 9 -> pixel_ok (pixel_of o).
Proof.
  unfold in_grid, MIN_POSITION, MAX_POSITION, pixel_of, pixel_ok.
  intros [Hx Hy] Hb. repeat split; lia.
Qed.

Lemma step_log_ok (s : Loop) (dev : Device) :
  in_grid (position (Game.player (game (fst (step s dev))))) ->
  well_placed (game (fst (step s dev))) ->
  brightness (Game.player (game (fst (step s dev)))) = 9 ->
  tidy (game (fst (step s dev))) ->
  Forall pixel_ok (emitted dev) ->
  Forall pixel_ok (emitted (snd (step s dev))).
Proof.
  intros Hp Hw Hb [_ Hdim] Hlog. destruct (phase s) eqn:Hph.
  - destruct (Game.game_running (game s)) eqn:Hrun.
    + rewrite (proj1 (step_outer_dev s dev Hph Hrun)).
      cbn [running_time snd emitted]. rewrite startLevel_log.
      constructor; [exact I | exact Hlog].
    + destruct (step_idle_dev s dev) as [-> _];
        [right; exact Hrun | left; congruence | exact Hlog].
  - destruct (Game.isGameOver (game s)) eqn:Hover.
    + destruct (step_idle_dev s dev) as [-> _];
        [left; congruence | right; exact Hover | exact Hlog].
    + rewrite (step_inner_tick s dev Hph Hover) in Hp, Hw, Hb, Hdim.
      destruct (tick_spec s dev) as (Hg & _).
      rewrite Hg in Hp, Hw, Hb, Hdim.
      unfold step. rewrite Hph, Hover. cbn [negb].
      rewrite tick_log. cbv zeta.
      constructor; [exact I |]. apply Forall_app. split.
      { destruct (Game.isGameOver (Game.update _)); repeat constructor. }
      constructor; [apply pixel_of_ok; [exact Hp | lia] |].
      apply Forall_app. split.
      * apply Forall_rev. apply Forall_map. apply Forall_forall.
        intros r Hin. apply pixel_of_ok.
        -- exact (proj2 (proj1 (Forall_forall _ _) Hw r Hin)).
        -- rewrite (proj1 (Forall_forall _ _) Hdim r Hin). lia.
      * constructor; [exact I |].
        destruct (getInput_log (game s) dev) as [-> | [[d ->] | ->]];
          [exact Hlog | constructor; [exact I | exact Hlog]
          | constructor; [exact I | exact Hlog]].
  - destruct (step_idle_dev s dev) as [-> _];
      [left; congruence | left; congruence | exact Hlog].
Qed.

(** No run of [main] asks [set_pixel] for a cell off the 5x5 grid or for a
    brightness outside 0..9: if the log held no such request before, it
    holds none after any number of steps. *)
Theorem display_requests_valid (n : nat) (dev : Device) :
  Forall pixel_ok (emitted dev) ->
  Forall pixel_ok (emitted (snd (main n dev))).
Proof.
  intros Hlog. rewrite main_run_dev.
  apply (run_invariant_dev
           (fun s d => (in_grid (position (Game.player (game s))) /\
                        well_placed (game s)) /\
                       brightness (Game.player (game s)) = 9 /\
                       tidy (game s) /\
                       Forall pixel_ok (emitted d))).
  - intros s d (Hgrid & Hb & Ht & Hl).
    pose proof (step_keeps_grid s d Hgrid) as Hgrid'.
    pose proof (step_keeps_brightness s d Hb) as Hb'.
    pose proof (step_keeps_tidy s d Ht) as Ht'.
    split; [exact Hgrid' |]. split; [exact Hb' |]. split; [exact Ht' |].
    apply step_log_ok; [apply Hgrid' | apply Hgrid' | exact Hb' | exact Ht'
                       | exact Hl].
  - split; [| split; [reflexivity | split; [split; constructor |]]].
    + split; [| constructor].
      unfold in_grid, Game.class_state, Player.init, SCREEN_CENTER,
        MIN_POSITION, MAX_POSITION.
      cbn [game Game.player position x y]. lia.
    + unfold playGame_enter, display_scroll. rewrite bind_run.
      unfold ret. cbn [snd]. rewrite emit_run. cbn [set_emitted emitted].
      constructor; [exact I |].
      unfold Game.init, Game.setup. rewrite !bind_run. unfold ret.
      cbn [snd fst compass_is_calibrated].
      destruct (calibrated dev); cbn [negb compass_calibrate ret snd emitted];
        [exact Hlog | constructor; [exact I | exact Hlog]].
Qed.

Lemma display_requests_valid_witness :
  Forall pixel_ok (emitted (snd (main 4 (still_device 10 0 0 0 0 13)))).
Proof.
  apply (display_requests_valid 4 (still_device 10 0 0 0 0 13)).
  constructor.
Defined.

(** * A device at rest *)

Lemma tick_frame {X} (proj : Device -> X) (s : Loop) (dev : Device) :
  (forall d l, proj (set_emitted d l) = proj d) ->
  (forall d, proj (snd (running_time d)) = proj d) ->
  proj (snd (tick s dev)) = proj (snd (Game.getInput (game s) dev)).
Proof.
  intros Hlog Hclock. unfold tick. rewrite bind_run. cbv zeta.
  rewrite !bind_run. unfold sleep.
  change (snd (ret ?a ?d)) with d. rewrite emit_run, Hlog.
  destruct (Game.isGameOver (Game.update (fst (Game.getInput (game s) dev)))).
  - rewrite !bind_run. unfold display_scroll.
    change (snd (ret ?a ?d)) with d.
    rewrite emit_run, Hlog, Hclock, draw_run, Hlog. reflexivity.
  - change (snd (ret ?a ?d)) with d. rewrite draw_run, Hlog. reflexivity.
Qed.

Lemma getInput_accel (g : Game.t) (dev : Device) :
  accel_x_feed (snd (Game.getInput g dev)) = feed_tail (accel_x_feed dev) /\
  accel_y_feed (snd (Game.getInput g dev)) = feed_tail (accel_y_feed dev) /\
  accel_z_feed (snd (Game.getInput g dev)) = feed_tail (accel_z_feed dev).
Proof.
  rewrite getInput_device. cbv zeta.
  set (buttons := fun b : bool =>
         if b
         then d <- Game.findApproxFacingDirection ;; display_scroll d 100
         else a <- button_a_was_pressed ;;
              if a then compass_calibrate else ret tt).
  assert (forall b, preserves accel_x_feed (buttons b)) as Hx
      by (intros b; unfold buttons; frame_all).
  assert (forall b, preserves accel_y_feed (buttons b)) as Hy
      by (intros b; unfold buttons; frame_all).
  assert (forall b, preserves accel_z_feed (buttons b)) as Hz
      by (intros b; unfold buttons; frame_all).
  change (if feed_head (button_b_feed ?d) then ?m1 else ?m2)
    with (buttons (feed_head (button_b_feed d))).
  rewrite Hx, Hy, Hz.
  cbn [button_b_was_pressed snd accel_x_feed accel_y_feed accel_z_feed].
  unfold Game.getAcceleration. rewrite !bind_run.
  cbn [ret snd fst accelerometer_get_x accelerometer_get_y accelerometer_get_z
         accel_x_feed accel_y_feed accel_z_feed].
  rewrite direction_keeps_accel_x, direction_keeps_accel_y,
    direction_keeps_accel_z.
  repeat split.
Qed.

Lemma getInput_calm (g : Game.t) (dev : Device) :
  calm dev -> fst (Game.getInput g dev) = g.
Proof.
  intros Hcalm. rewrite getInput_game, getAcceleration_run.
  rewrite direction_keeps_accel_x, direction_keeps_accel_y,
    direction_keeps_accel_z.
  unfold surd_gtb, math_sqrt. cbn [radicand]. unfold feed_head.
  pose proof (Hcalm 0%nat) as H0.
  change (Game.acceleration_needed_to_move <? 0) with false. cbv iota.
  destruct (Z.ltb_spec
              (Game.acceleration_needed_to_move
               * Game.acceleration_needed_to_move)
              (accel_x_feed dev 0%nat ^ 2 + accel_y_feed dev 0%nat ^ 2 +
               accel_z_feed dev 0%nat ^ 2)); [lia | reflexivity].
Qed.

Lemma step_calm (s : Loop) (dev : Device) :
  calm dev /\ Game.player (game s) = Player.init ->
  calm (snd (step s dev)) /\
  Game.player (game (fst (step s dev))) = Player.init.
Proof.
  intros [Hcalm Hp]. destruct (phase s) eqn:Hph.
  - destruct (Game.game_running (game s)) eqn:Hrun.
    + destruct (step_outer_dev s dev Hph Hrun) as [-> _].
      destruct (step_outer s dev Hph Hrun) as (-> & _ & _).
      destruct (startLevel_spec (game s) (pickup_amount s) dev) as (-> & _).
      rewrite Hp. split; [| reflexivity].
      intros n. cbn [running_time snd accel_x_feed accel_y_feed accel_z_feed].
      rewrite (startLevel_preserves accel_x_feed),
        (startLevel_preserves accel_y_feed),
        (startLevel_preserves accel_z_feed); try frame_all.
      apply Hcalm.
    + unfold step. rewrite Hph, Hrun. split; assumption.
  - destruct (Game.isGameOver (game s)) eqn:Hover.
    + rewrite (step_inner_exit s dev Hph Hover).
      destruct (step_idle_dev s dev) as [-> _];
        [left; congruence | right; exact Hover | split; assumption].
    + rewrite (step_inner_tick s dev Hph Hover).
      destruct (tick_spec s dev) as (-> & _).
      rewrite (getInput_calm (game s) dev Hcalm).
      split; [| exact Hp].
      unfold step. rewrite Hph, Hover. cbn [negb].
      destruct (getInput_accel (game s) dev) as (Hx & Hy & Hz).
      intros n.
      rewrite (tick_frame accel_x_feed), (tick_frame accel_y_feed),
        (tick_frame accel_z_feed); try reflexivity.
      rewrite Hx, Hy, Hz. apply (Hcalm (S n)).
  - unfold step. rewrite Hph. split; assumption.
Qed.

(** While the accelerometer never reports more than the threshold, the
    player stays on the centre cell with brightness 9, through every level
    start and every tick. *)
Theorem calm_device_never_moves (n : nat) (dev : Device) :
  calm dev -> Game.player (game (fst (main n dev))) = Player.init.
Proof.
  intros Hcalm. rewrite main_run_dev.
  apply (run_invariant_dev
           (fun s d => calm d /\ Game.player (game s) = Player.init)).
  - intros s d. apply step_calm.
  - split; [| reflexivity]. intros k.
    rewrite (entry_preserves accel_x_feed),
      (entry_preserves accel_y_feed), (entry_preserves accel_z_feed);
      try (intros; intros ?; reflexivity).
    apply Hcalm.
Qed.

Lemma still_device_calm (h now rnd : Z) : calm (still_device h 1000 0 0 now rnd).
Proof. intros n. vm_compute. discriminate. Defined.

Lemma calm_device_never_moves_witness :
  Game.player (game (fst (main 5 (still_device 100 1000 0 0 0 7)))) =
    Player.init.
Proof.
  apply (calm_device_never_moves 5 (still_device 100 1000 0 0 0 7)
           (still_device_calm 100 0 7)).
Defined.

(** * The clock *)




(** * How a level ends *)

(** A tick never adds a pickup, and a tick can clear the level only with
    the player standing on the cell of every pickup that was left; it is
    then that [pickup_amount] grows by 1. *)
Theorem level_ends_on_pickups (s : Loop) (dev : Device) :
  phase s = InnerLoop -> Game.isGameOver (game s) = false ->
  (List.length (Game.pickups (game (fst (step s dev))))
   <= List.length (Game.pickups (game s)))%nat /\
  (Game.isGameOver (game (fst (step s dev))) = true ->
   pickup_amount (fst (step s dev)) = pickup_amount s + 1 /\
   forall r, In r (Game.pickups (game s)) ->
             position (Game.objects (game s) r) =
               position (Game.player (game (fst (step s dev))))).
Proof.
  intros Hph Hover. rewrite (step_inner_tick s dev Hph Hover).
  destruct (tick_spec s dev) as (-> & -> & _).
  destruct (getInput_keeps_board (game s) dev) as (Hl & Ho & _).
  set (g1 := fst (Game.getInput (game s) dev)) in *.
  split.
  - rewrite <- Hl. unfold Game.update. cbn [Game.pickups Game.set_pickups].
    apply update_loop_length_le.
  - intros Hdone. rewrite Hdone. split; [reflexivity |].
    intros r Hin. rewrite <- Hl in Hin. rewrite <- Ho.
    change (Game.player (Game.update g1)) with (Game.player g1).
    apply collides_position.
    apply isGameOver_length in Hdone. apply length_zero_iff_nil in Hdone.
    apply (update_loop_removed_collides g1 (List.length (Game.pickups g1))
             0%nat (Game.pickups g1) r).
    unfold Game.update in Hdone. cbn [Game.pickups Game.set_pickups] in Hdone.
    rewrite Hdone. cbn [count_occ].
    apply (count_occ_In Nat.eq_dec). exact Hin.
Qed.

Lemma level_ends_on_pickups_witness :
  pickup_amount
    (fst (step (mkLoop (game_with (player_at 2 1) [(2, 0)]) 4 0 InnerLoop)
               (still_device 10 1500 0 0 0 0))) = 5 /\
  position (Game.objects (game_with (player_at 2 1) [(2, 0)]) 0) =
    mkPosition 2 0.
Proof.
  pose proof (proj2 (level_ends_on_pickups
                       (mkLoop (game_with (player_at 2 1) [(2, 0)]) 4 0
                               InnerLoop)
                       (still_device 10 1500 0 0 0 0) eq_refl eq_refl)
                    eq_refl) as [Hamount Hcells].
  split; [exact Hamount |].
  apply (Hcells 0%nat). left. reflexivity.
Defined.
